(** * OpenAPI snapshot tooling: subset extraction and structural diff

    A shallow embedding of the core of [scripts/openapi.py]
    ([extract_paths], [_collect_refs], [_resolve_ref], [_prune_components],
    [diff_schemas], [_diff_path_item], [_diff_operation], [_param_key],
    [_extract_body_schema]) together with the properties the specification
    states about them. *)

From stdpp Require Import gmap strings list fin_maps sorting pretty.
From Stdlib Require Import ZArith Ascii.

#[global] Set Warnings "-clear-no-such-hyp".

(** ** Parsed JSON documents

    [json.load] yields [None], [bool], [int], [float], [str], [list] and
    [dict] with string keys.  A [dict] is a finite map: the code never
    depends on insertion order (it sorts keys wherever order shows), and
    Python's [==] on dicts ignores it.  Python's [None] and JSON [null] are
    the same value, [JNull].  Floats are never computed with; the code
    only serialises them, so a float is represented by the text
    [json.dumps] writes for it. *)

#[warnings="-register-all"]
Inductive json :=
  | JNull
  | JBool (b : bool)
  | JInt (n : Z)
  | JFloat (repr : string)
  | JStr (s : string)
  | JList (l : list json)
  | JDict (m : gmap string json).

Abbreviation dict := (gmap string json).

Fixpoint json_size (v : json) : nat :=
  match v with
  | JList l => S (foldr (λ x n, json_size x + n) 0 l)
  | JDict m => S (map_fold (λ _ x n, json_size x + n) 0 m)
  | _ => 1
  end.

(** Structural equality.  Dicts being canonical finite maps, this is the
    comparison [json.dumps(a, sort_keys=True) == json.dumps(b, sort_keys=True)]
    performs: the sorted-key serialisation is injective on parsed JSON. *)
Global Instance json_eq_dec : EqDecision json.
Proof.
  refine (fix go (x y : json) : Decision (x = y) :=
    let _ : EqDecision json := @go in
    match x, y with
    | JNull, JNull => left _
    | JBool a, JBool b => cast_if (decide (a = b))
    | JInt a, JInt b => cast_if (decide (a = b))
    | JFloat a, JFloat b => cast_if (decide (a = b))
    | JStr a, JStr b => cast_if (decide (a = b))
    | JList a, JList b => cast_if (decide (a = b))
    | JDict a, JDict b => cast_if (decide (a = b))
    | _, _ => right _
    end); congruence.
Defined.

Definition dumps_differ (a b : json) : bool := bool_decide (a ≠ b).

(** ** Exceptions

    A call either returns or raises.  [Unmodelled] marks the places where
    Python's duck typing would carry on with a list or a string standing in
    for a mapping ([set(x)], iteration): the embedding stops there instead
    of following keys that are no longer strings.  [OutOfFuel] is the
    budget of the [while] loop of [extract_paths] running out; it never
    happens (see [closure_terminates]). *)

Inductive exn := AttributeError | TypeError | KeyError | Unmodelled | OutOfFuel.

Inductive result (A : Type) :=
  | Ok (a : A)
  | Raise (e : exn).
Arguments Ok {A} a.
Arguments Raise {A} e.

Global Instance exn_eq_dec : EqDecision exn.
Proof. solve_decision. Defined.
Global Instance result_eq_dec {A} `{EqDecision A} : EqDecision (result A).
Proof. solve_decision. Defined.

Global Instance result_ret : MRet result := λ A, Ok.
Global Instance result_bind : MBind result := λ A B f r,
  match r with Ok a => f a | Raise e => Raise e end.
Global Instance result_fmap : FMap result := λ A B f r,
  match r with Ok a => Ok (f a) | Raise e => Raise e end.

(** A [for] loop whose body may raise, threading the mutated variable. *)
Fixpoint foldM {A B} (f : B → A → result B) (b : B) (l : list A) : result B :=
  match l with
  | [] => Ok b
  | x :: l => b' ← f b x; foldM f b' l
  end.

Fixpoint map_results {A B} (f : A → result B) (l : list A) : result (list B) :=
  match l with
  | [] => Ok []
  | x :: l => y ← f x; ys ← map_results f l; Ok (y :: ys)
  end.

(** ** String built-ins *)

(** [s.startswith(p)] *)
Definition startswith (s p : string) : bool := String.prefix p s.

(** [s[n:]] *)
Fixpoint str_from (n : nat) (s : string) : string :=
  match n, s with
  | S n, String _ s => str_from n s
  | _, _ => s
  end.

(** [s.removeprefix(p)] *)
Definition removeprefix (s p : string) : string :=
  if startswith s p then str_from (String.length p) s else s.

(** [s.split(sep)] for a one-character separator: never empty, one more
    piece than there are separators. *)
Fixpoint split (sep : Ascii.ascii) (s : string) : list string :=
  match s with
  | EmptyString => [EmptyString]
  | String c s =>
      if Ascii.eqb c sep then EmptyString :: split sep s
      else match split sep s with
           | w :: ws => String c w :: ws
           | [] => [String c EmptyString]
           end
  end.

(** [sep.join(parts)] *)
Fixpoint join (sep : string) (parts : list string) : string :=
  match parts with
  | [] => ""
  | [p] => p
  | p :: ps => p +:+ sep +:+ join sep ps
  end.

(** Whether the character [c] occurs in [s]. *)
Fixpoint has_char (c : ascii) (s : string) : bool :=
  match s with
  | EmptyString => false
  | String c' s => Ascii.eqb c' c || has_char c s
  end.

(** [p in s] on two strings: substring test. *)
Fixpoint is_substring (p s : string) : bool :=
  String.prefix p s ||
  match s with
  | EmptyString => false
  | String _ s => is_substring p s
  end.

(** [sorted(X)] for a set of strings.  Strings compare by code point, which
    on UTF-8 text is the byte-wise lexicographic order [String.le]. *)
Definition sorted (X : gset string) : list string :=
  merge_sort String.le (elements X).

(** ** Operations on values of unknown type *)

(** [d.get(k, default)] on a dict. *)
Definition dict_get (d : dict) (k : string) (default : json) : json :=
  match d !! k with Some v => v | None => default end.

(** [v.get(k, default)]: only a dict has [.get]. *)
Definition attr_get (v : json) (k : string) (default : json) : result json :=
  match v with
  | JDict d => Ok (dict_get d k default)
  | _ => Raise AttributeError
  end.

(** [k in v] for a string [k]: key test on a dict, membership on a list,
    substring test on a string; the other types are not containers. *)
Definition py_in (k : string) (v : json) : result bool :=
  match v with
  | JDict d => Ok (bool_decide (is_Some (d !! k)))
  | JList l => Ok (bool_decide (JStr k ∈ l))
  | JStr s => Ok (is_substring k s)
  | _ => Raise TypeError
  end.

(** [v[k]] for a string [k]: lists and strings take integer indices only. *)
Definition py_getitem (v : json) (k : string) : result json :=
  match v with
  | JDict d => match d !! k with Some x => Ok x | None => Raise KeyError end
  | _ => Raise TypeError
  end.

(** [set(v)] where the code expects a mapping: its keys. *)
Definition py_set (v : json) : result (gset string) :=
  match v with
  | JDict d => Ok (dom d)
  | JList _ | JStr _ => Raise Unmodelled
  | _ => Raise TypeError
  end.

(** [for p in v] where the code expects a list. *)
Definition py_iter (v : json) : result (list json) :=
  match v with
  | JList l => Ok l
  | JDict _ | JStr _ => Raise Unmodelled
  | _ => Raise TypeError
  end.

(** ** Constants *)

Definition PATHS_WE_USE : list string :=
  [ "/api/documents/";
    "/api/documents/bulk_edit/";
    "/api/documents/post_document/";
    "/api/documents/{id}/";
    "/api/documents/{id}/download/";
    "/api/tags/";
    "/api/tags/{id}/";
    "/api/correspondents/";
    "/api/correspondents/{id}/";
    "/api/document_types/";
    "/api/document_types/{id}/";
    "/api/bulk_edit_objects/" ].

(** ** Extract: keep only the paths we care about *)

(** [_collect_refs(obj, refs)]: the set [refs] is mutated in place; here it
    is passed in and returned. *)
Fixpoint _collect_refs (obj : json) (refs : gset string) : gset string :=
  match obj with
  | JDict d =>
      let refs :=
        match d !! "$ref" with
        | Some (JStr ref) => refs ∪ {[ ref ]}
        | _ => refs
        end in
      map_fold (λ _ v refs, _collect_refs v refs) refs d
  | JList l => foldl (λ refs item, _collect_refs item refs) refs l
  | _ => refs
  end.

(** The [for part in parts] loop of [_resolve_ref], with its early
    [return None]. *)
Fixpoint walk_parts (current : json) (parts : list string) : json :=
  match parts with
  | [] => current
  | part :: parts =>
      match current with
      | JDict d =>
          match d !! part with
          | Some v => walk_parts v parts
          | None => JNull
          end
      | _ => JNull
      end
  end.

Definition _resolve_ref (ref : string) (schema : dict) : json :=
  if negb (startswith ref "#/") then JNull
  else walk_parts (JDict schema) (split "/"%char (str_from 2 ref)).

(** One round of the [for ref in needed_refs] loop of [_prune_components].
    [pruned] only ever holds dicts (made by [setdefault]), so it is typed as
    a map of maps. *)
Definition prune_ref (components : json)
    (pruned : gmap string dict) (ref : string) : result (gmap string dict) :=
  if negb (startswith ref "#/components/") then Ok pruned
  else
    match split "/"%char (removeprefix ref "#/components/") with
    | [category; name] =>
        has_category ← py_in category components;
        if (has_category : bool) then
          entries ← py_getitem components category;
          has_name ← py_in name entries;
          if (has_name : bool) then
            entries ← py_getitem components category;
            v ← py_getitem entries name;
            Ok (<[category := <[name := v]> (default ∅ (pruned !! category))]> pruned)
          else Ok pruned
        else Ok pruned
    | _ => Ok pruned
    end.

Definition _prune_components (components : json) (needed_refs : gset string)
    : result (gmap string dict) :=
  foldM (prune_ref components) ∅ (elements needed_refs).

(** The body of the [while] loop: resolve every reference of a snapshot of
    the set and collect the references of each target into the set. *)
Definition resolve_round (schema : dict) (needed_refs : gset string) : gset string :=
  foldl (λ refs ref,
           match _resolve_ref ref schema with
           | JNull => refs
           | obj => _collect_refs obj refs
           end)
        needed_refs (elements needed_refs).

(** [while len(needed_refs) != prev_size: ...], with a budget of loop
    tests. *)
Fixpoint closure_loop (fuel : nat) (schema : dict)
    (needed_refs : gset string) (prev_size : Z) : option (gset string) :=
  match fuel with
  | O => None
  | S fuel =>
      if bool_decide (Z.of_nat (size needed_refs) ≠ prev_size) then
        closure_loop fuel schema (resolve_round schema needed_refs)
                     (Z.of_nat (size needed_refs))
      else Some needed_refs
  end.

(** The references written inside the target of [ref]; none when [ref]
    does not resolve. *)
Definition target_refs (schema : dict) (ref : string) : gset string :=
  _collect_refs (_resolve_ref ref schema) ∅.

(** References reachable from a set of seeds by resolving against
    [schema], any number of hops. *)
Inductive reachable (schema : dict) (seeds : gset string) : string → Prop :=
  | reachable_seed r : r ∈ seeds → reachable schema seeds r
  | reachable_hop r r' :
      reachable schema seeds r → r' ∈ target_refs schema r →
      reachable schema seeds r'.

(** Every [$ref] string written anywhere in the document. *)
Definition all_refs (schema : dict) : gset string :=
  _collect_refs (JDict schema) ∅.

Definition needed_closure (schema : dict) (kept_paths : dict) : option (gset string) :=
  closure_loop (S (S (size (all_refs schema)))) schema
               (_collect_refs (JDict kept_paths) ∅) (-1).

(** One round of [for pattern in paths]. *)
Definition keep_path (all_paths : json) (kept_paths : dict) (pattern : string)
    : result dict :=
  present ← py_in pattern all_paths;
  if (present : bool) then
    item ← py_getitem all_paths pattern;
    Ok (<[pattern := item]> kept_paths)
  else Ok kept_paths.

Definition extract_paths (schema : dict) (paths : list string) : result dict :=
  let all_paths := dict_get schema "paths" (JDict ∅) in
  kept_paths ← foldM (keep_path all_paths) ∅ paths;
  let components := dict_get schema "components" (JDict ∅) in
  match needed_closure schema kept_paths with
  | None => Raise OutOfFuel
  | Some needed_refs =>
      kept_components ← _prune_components components needed_refs;
      let subset : dict :=
        <["paths" := JDict kept_paths]>
          (<["info" := dict_get schema "info" (JDict ∅)]>
             (<["openapi" := dict_get schema "openapi" (JStr "3.0.0")]> ∅)) in
      Ok (if decide (kept_components = ∅) then subset
            else <["components" := JDict (JDict <$> kept_components)]> subset)
  end.

(** *** Vocabulary for the properties of extraction *)

(** The mapping a value is, if it is one. *)
Definition dict_of (v : json) : dict :=
  match v with JDict d => d | _ => ∅ end.

(** [#/components/<category>/<name>] *)
Definition component_ref (category name : string) : string :=
  "#/components/" +:+ category +:+ "/" +:+ name.

(** The category and name of a reference of that form, with exactly two
    segments after the prefix: the guard of [_prune_components]. *)
Definition parse_component_ref (ref : string) : option (string * string) :=
  if startswith ref "#/components/" then
    match split "/"%char (removeprefix ref "#/components/") with
    | [category; name] => Some (category, name)
    | _ => None
    end
  else None.

(** [components[category][name]] where both levels are mappings. *)
Definition component_entry (components : json) (category name : string)
    : option json :=
  dict_of components !! category ≫= λ entries, dict_of entries !! name.

Definition pruned_entry (pruned : gmap string dict) (category name : string)
    : option json :=
  pruned !! category ≫= λ entries, entries !! name.

(** The keys of the [paths] section of a document. *)
Definition path_keys (schema : dict) : gset string :=
  dom (dict_of (dict_get schema "paths" (JDict ∅))).

(** The references written in the kept path-items of a document. *)
Definition path_refs (schema : dict) : gset string :=
  _collect_refs (dict_get schema "paths" (JDict ∅)) ∅.

(** The resolver in the words of the specification: walking from a value
    along the components of a pointer, every intermediate value has to be a
    mapping that contains the next component. *)
Inductive points_to : json → list string → json → Prop :=
  | points_here v : points_to v [] v
  | points_step (d : dict) part parts v target :
      d !! part = Some v → points_to v parts target →
      points_to (JDict d) (part :: parts) target.

(** The document [extract_paths] assembles from what it kept. *)
Definition subset_document (schema kept_paths : dict)
    (kept_components : gmap string dict) : dict :=
  let subset : dict :=
    <["paths" := JDict kept_paths]>
      (<["info" := dict_get schema "info" (JDict ∅)]>
         (<["openapi" := dict_get schema "openapi" (JStr "3.0.0")]> ∅)) in
  if decide (kept_components = ∅) then subset
  else <["components" := JDict (JDict <$> kept_components)]> subset.

(** Closure completeness as the specification words it: every reference
    written in a path-item of [result] is either not a local pointer or
    resolves to a value in [result]. *)
Definition self_contained (result : dict) : Prop :=
  ∀ path item ref,
    dict_of (dict_get result "paths" (JDict ∅)) !! path = Some item →
    ref ∈ _collect_refs item ∅ →
    startswith ref "#/" = false ∨ _resolve_ref ref result ≠ JNull.

(** *** Example documents *)

Definition obj (fields : list (string * json)) : json := JDict (list_to_map fields).

Definition ref_to (ref : string) : json := obj [("$ref", JStr ref)].

Definition tags_item (ref : string) : json :=
  obj [("get", obj [("responses", obj [("200", obj [("schema", ref_to ref)])])])].

(** Scenario 5: [Tag] refers to [TagList]; [Correspondent] is unrelated. *)
Definition two_hop_schema : dict :=
  list_to_map
    [("openapi", JStr "3.0.3");
     ("paths", obj [("/api/tags/", tags_item "#/components/schemas/Tag");
                    ("/api/other/", obj [])]);
     ("components",
      obj [("schemas",
            obj [("Tag", obj [("items", ref_to "#/components/schemas/TagList")]);
                 ("TagList", obj [("type", JStr "array")]);
                 ("Correspondent", obj [("type", JStr "object")])])])].

Definition two_hop_subset : dict :=
  list_to_map
    [("openapi", JStr "3.0.3");
     ("info", obj []);
     ("paths", obj [("/api/tags/", tags_item "#/components/schemas/Tag")]);
     ("components",
      obj [("schemas",
            obj [("Tag", obj [("items", ref_to "#/components/schemas/TagList")]);
                 ("TagList", obj [("type", JStr "array")])])])].

(** A path that points inside a component, to a property that refers to
    another component. *)
Definition deep_pointer_schema : dict :=
  list_to_map
    [("paths",
      obj [("/api/tags/", tags_item "#/components/schemas/Tag/properties/child")]);
     ("components",
      obj [("schemas",
            obj [("Tag",
                  obj [("properties",
                        obj [("child", ref_to "#/components/schemas/Other")])]);
                 ("Other", obj [("type", JStr "object")])])])].

Definition deep_pointer_subset : dict :=
  list_to_map
    [("openapi", JStr "3.0.0");
     ("info", obj []);
     ("paths",
      obj [("/api/tags/", tags_item "#/components/schemas/Tag/properties/child")]);
     ("components",
      obj [("schemas", obj [("Other", obj [("type", JStr "object")])])])].

(** ** Diff: structural comparison of two schemas *)

Record SchemaDiff := {
  added_paths : list string;
  removed_paths : list string;
  (* insertion order kept: one entry per changed path *)
  changed_paths : list (string * list string);
}.

Global Instance SchemaDiff_eq_dec : EqDecision SchemaDiff.
Proof. solve_decision. Defined.

Definition has_changes (d : SchemaDiff) : bool :=
  negb (bool_decide (added_paths d = []))
  || negb (bool_decide (removed_paths d = []))
  || negb (bool_decide (changed_paths d = [])).

(** The two text built-ins the differ relies on: [str.upper] and the
    formatting of a value inside an f-string, which leaves a string as it
    is. *)
Class TextBuiltins := {
  upper : string → string;
  format_value : json → string;
  format_value_str s : format_value (JStr s) = s;
}.

Section Diff.
Context `{TextBuiltins}.

Definition _param_key (param : json) : result string :=
  loc ← attr_get param "in" (JStr "?");
  name ← attr_get param "name" (JStr "?");
  Ok (format_value loc +:+ ":" +:+ format_value name).

Definition _extract_body_schema (operation : json) : result json :=
  body ← attr_get operation "requestBody" (JDict ∅);
  content ← attr_get body "content" (JDict ∅);
  fallback ← attr_get content "multipart/form-data" (JDict ∅);
  json_content ← attr_get content "application/json" fallback;
  attr_get json_content "schema" JNull.

(** [{_param_key(p): p for p in params}] *)
Definition param_table (params : json) : result dict :=
  items ← py_iter params;
  foldM (λ table p, key ← _param_key p; Ok (<[key := p]> table)) ∅ items.

Definition operation_params (operation : json) : result dict :=
  params ← attr_get operation "parameters" (JList []);
  param_table params.

Definition operation_responses (operation : json) : result (gset string) :=
  responses ← attr_get operation "responses" (JDict ∅);
  py_set responses.

(** Body of [for key in sorted(set(old_params) | set(new_params))]. *)
Definition diff_param (tag : string) (old_params new_params : dict)
    (diffs : list string) (key : string) : list string :=
  match old_params !! key, new_params !! key with
  | None, _ => diffs ++ [tag +:+ " param added: " +:+ key]
  | Some _, None => diffs ++ [tag +:+ " param removed: " +:+ key]
  | Some p, Some q =>
      if dumps_differ p q then diffs ++ [tag +:+ " param changed: " +:+ key]
      else diffs
  end.

Definition _diff_operation (method : string) (old new : json)
    : result (list string) :=
  let diffs : list string := [] in
  let tag := upper method in
  old_params ← operation_params old;
  new_params ← operation_params new;
  let diffs :=
    foldl (diff_param tag old_params new_params) diffs
          (sorted (dom old_params ∪ dom new_params)) in
  old_body ← _extract_body_schema old;
  new_body ← _extract_body_schema new;
  let diffs :=
    if dumps_differ old_body new_body
    then diffs ++ [tag +:+ " request body changed"] else diffs in
  old_responses ← operation_responses old;
  new_responses ← operation_responses new;
  let diffs :=
    foldl (λ diffs code, diffs ++ [tag +:+ " response added: " +:+ code])
          diffs (sorted (new_responses ∖ old_responses)) in
  let diffs :=
    foldl (λ diffs code, diffs ++ [tag +:+ " response removed: " +:+ code])
          diffs (sorted (old_responses ∖ new_responses)) in
  Ok diffs.

(** Body of [for method in all_methods]. *)
Definition diff_method (old new : json) (diffs : list string) (method : string)
    : result (list string) :=
  if startswith method "x-" || bool_decide (method = "parameters") then Ok diffs
  else
    in_new ← py_in method new;
    in_old ← py_in method old;
    if (in_new : bool) && negb in_old then
      Ok (diffs ++ ["method added: " +:+ upper method])
    else if in_old && negb in_new then
      Ok (diffs ++ ["method removed: " +:+ upper method])
    else if in_old && in_new then
      old_op ← py_getitem old method;
      new_op ← py_getitem new method;
      method_diffs ← _diff_operation method old_op new_op;
      Ok (diffs ++ method_diffs)
    else Ok diffs.

Definition _diff_path_item (old new : json) : result (list string) :=
  old_methods ← py_set old;
  new_methods ← py_set new;
  let all_methods := sorted (old_methods ∪ new_methods) in
  foldM (diff_method old new) [] all_methods.

(** [{k: v for k, v in paths.items() if k in paths_filter}] *)
Definition filter_paths (paths : json) (paths_filter : list string) : result json :=
  match paths with
  | JDict d => Ok (JDict (filter (λ kv, kv.1 ∈ paths_filter) d))
  | _ => Raise AttributeError
  end.

(** Body of [for path in sorted(old_keys & new_keys)]. *)
Definition diff_common_path (old_paths new_paths : json)
    (changed : list (string * list string)) (path : string)
    : result (list (string * list string)) :=
  old_item ← py_getitem old_paths path;
  new_item ← py_getitem new_paths path;
  diffs ← _diff_path_item old_item new_item;
  Ok (match diffs with [] => changed | _ => changed ++ [(path, diffs)] end).

Definition diff_schemas (old new : dict) (paths_filter : option (list string))
    : result SchemaDiff :=
  let old_paths := dict_get old "paths" (JDict ∅) in
  let new_paths := dict_get new "paths" (JDict ∅) in
  old_paths ← match paths_filter with
              | Some f => filter_paths old_paths f
              | None => Ok old_paths
              end;
  new_paths ← match paths_filter with
              | Some f => filter_paths new_paths f
              | None => Ok new_paths
              end;
  old_keys ← py_set old_paths;
  new_keys ← py_set new_paths;
  let added := sorted (new_keys ∖ old_keys) in
  let removed := sorted (old_keys ∖ new_keys) in
  changed ← foldM (diff_common_path old_paths new_paths) []
                  (sorted (old_keys ∩ new_keys));
  Ok {| added_paths := added; removed_paths := removed;
          changed_paths := changed |}.
End Diff.

(** [str.upper] on ASCII text. *)
Definition ascii_upper_char (c : Ascii.ascii) : Ascii.ascii :=
  let n := nat_of_ascii c in
  if (97 <=? n)%nat && (n <=? 122)%nat then ascii_of_nat (n - 32) else c.

Fixpoint ascii_upper (s : string) : string :=
  match s with
  | EmptyString => EmptyString
  | String c s => String (ascii_upper_char c) (ascii_upper s)
  end.

(** An instance for running the differ on documents whose method names
    are ASCII and whose parameter fields are strings. *)
Definition ascii_text : TextBuiltins :=
  {| upper := ascii_upper;
     format_value v := match v with JStr s => s | _ => "" end;
     format_value_str _ := eq_refl |}.

(** *** Vocabulary for the properties of the differ *)

(** Parameter descriptors, one key of the sorted union at a time. *)
Definition param_diffs (tag : string) (old_params new_params : dict) : list string :=
  sorted (dom old_params ∪ dom new_params) ≫= λ key,
    match old_params !! key, new_params !! key with
    | None, Some _ => [tag +:+ " param added: " +:+ key]
    | Some _, None => [tag +:+ " param removed: " +:+ key]
    | Some p, Some q =>
        if decide (p = q) then [] else [tag +:+ " param changed: " +:+ key]
    | None, None => []
    end.

(** At most one descriptor for the request body. *)
Definition body_diffs (tag : string) (old_body new_body : json) : list string :=
  if decide (old_body = new_body) then [] else [tag +:+ " request body changed"].

(** Added codes in ascending order, then removed codes in ascending order. *)
Definition response_diffs (tag : string) (old_codes new_codes : gset string)
    : list string :=
  ((λ code, tag +:+ " response added: " +:+ code) <$> sorted (new_codes ∖ old_codes))
  ++ ((λ code, tag +:+ " response removed: " +:+ code) <$> sorted (old_codes ∖ new_codes)).

(** The schema of the JSON media type, else of the multipart one, else
    nothing. *)
Definition media_schema (content : dict) : json :=
  match content !! "application/json" with
  | Some media => dict_get (dict_of media) "schema" JNull
  | None =>
      match content !! "multipart/form-data" with
      | Some media => dict_get (dict_of media) "schema" JNull
      | None => JNull
      end
  end.

Definition request_body_schema (operation : json) : json :=
  media_schema
    (dict_of (dict_get (dict_of (dict_get (dict_of operation) "requestBody" (JDict ∅)))
                       "content" (JDict ∅))).

(** Keys that are not operations. *)
Definition is_method (key : string) : bool :=
  negb (startswith key "x-") && negb (bool_decide (key = "parameters")).

Section DiffSpec.
Context `{TextBuiltins}.

(** What one method contributes to the diff of a path item. *)
Definition method_diffs (old new : dict) (method : string) : result (list string) :=
  match old !! method, new !! method with
  | None, Some _ => Ok ["method added: " +:+ upper method]
  | Some _, None => Ok ["method removed: " +:+ upper method]
  | Some old_op, Some new_op => _diff_operation method old_op new_op
  | None, None => Ok []
  end.
End DiffSpec.

Definition no_changes : SchemaDiff :=
  {| added_paths := []; removed_paths := []; changed_paths := [] |}.

(** *** Example operations *)

Definition param (loc name : string) : json :=
  obj [("in", JStr loc); ("name", JStr name)].

Definition old_tags_get : json :=
  obj [("parameters", JList [param "query" "page"]);
       ("responses", obj [("200", obj []); ("404", obj [])])].

Definition new_tags_get : json :=
  obj [("parameters", JList [param "query" "page"; param "query" "page_size"]);
       ("responses", obj [("200", obj [])])].

Definition old_tags_schema : dict :=
  list_to_map [("paths", obj [("/api/tags/", obj [("get", old_tags_get)]);
                              ("/api/foo/", obj [])])].

Definition new_tags_schema : dict :=
  list_to_map [("paths", obj [("/api/tags/", obj [("get", new_tags_get)])])].


(** ** [SchemaDiff.summary] *)

(** [sorted(l)] for a list of strings. *)
Definition sorted_list (l : list string) : list string := merge_sort String.le l.

(** The line separator of ["\n".join(lines)]. *)
Definition newline : string := String "010"%char "".

(** The [lines] list [summary] builds.  [changed_paths] is a dict there:
    [sorted(self.changed_paths)] are its keys in ascending order and
    [self.changed_paths[path]] the descriptors stored under a key;
    [len(...)] is formatted in decimal.  A dict holds a key once: the
    record stands for a [SchemaDiff] when the keys of [changed_paths] are
    all different. *)
Definition summary_lines (d : SchemaDiff) : list string :=
  let lines : list string := [] in
  let lines :=
    if bool_decide (added_paths d = []) then lines
    else lines
         ++ ["Added paths (" +:+ pretty (length (added_paths d)) +:+ "):"]
         ++ ((λ p, "  + " +:+ p) <$> sorted_list (added_paths d)) in
  let lines :=
    if bool_decide (removed_paths d = []) then lines
    else lines
         ++ ["Removed paths (" +:+ pretty (length (removed_paths d)) +:+ "):"]
         ++ ((λ p, "  - " +:+ p) <$> sorted_list (removed_paths d)) in
  let lines :=
    if bool_decide (changed_paths d = []) then lines
    else lines
         ++ ["Changed paths (" +:+ pretty (length (changed_paths d)) +:+ "):"]
         ++ (sorted_list (changed_paths d).*1 ≫= λ path,
               (λ detail, "  ~ " +:+ path +:+ ": " +:+ detail)
                 <$> default [] ((list_to_map (changed_paths d)
                                   : gmap string (list string)) !! path)) in
  match lines with
  | [] => ["No changes."]
  | _ => lines
  end.

Definition summary (d : SchemaDiff) : string := join newline (summary_lines d).

(** ** Vocabulary for further properties *)

(** A [$ref] string written somewhere in a value. *)
Inductive has_ref : json → string → Prop :=
  | has_ref_here (d : dict) ref :
      d !! "$ref" = Some (JStr ref) → has_ref (JDict d) ref
  | has_ref_value (d : dict) key v ref :
      d !! key = Some v → has_ref v ref → has_ref (JDict d) ref
  | has_ref_item l v ref :
      v ∈ l → has_ref v ref → has_ref (JList l) ref.

Definition is_dict (v : json) : bool :=
  match v with JDict _ => true | _ => false end.

(** An operation object every part of which the differ can read: the
    parameters are a list of mappings, [requestBody], its [content] and the
    media type chosen there are mappings, and so are the [responses]. *)
Definition operation_readable (operation : json) : bool :=
  match operation with
  | JDict o =>
      match dict_get o "parameters" (JList []) with
      | JList params => forallb is_dict params
      | _ => false
      end
      && match dict_get o "requestBody" (JDict ∅) with
         | JDict body =>
             match dict_get body "content" (JDict ∅) with
             | JDict content =>
                 is_dict (dict_get content "application/json"
                            (dict_get content "multipart/form-data" (JDict ∅)))
             | _ => false
             end
         | _ => false
         end
      && is_dict (dict_get o "responses" (JDict ∅))
  | _ => false
  end.

(** A path item all of whose methods are readable operations. *)
Definition path_item_readable (item : json) : Prop :=
  ∃ methods : dict,
    item = JDict methods
    ∧ ∀ method operation,
        methods !! method = Some operation → is_method method = true →
        operation_readable operation = true.

(** A document whose [paths] section, when present, maps to readable path
    items. *)
Definition schema_readable (schema : dict) : Prop :=
  ∃ paths : dict,
    dict_get schema "paths" (JDict ∅) = JDict paths
    ∧ ∀ path item, paths !! path = Some item → path_item_readable item.

(** Whether a path takes part in the comparison ([k in paths_filter], or
    no filter at all). *)
Definition in_filter (paths_filter : option (list string)) (p : string) : Prop :=
  match paths_filter with
  | Some allowed => p ∈ allowed
  | None => True
  end.

Global Instance in_filter_dec paths_filter p : Decision (in_filter paths_filter p).
Proof. destruct paths_filter; simpl; apply _. Defined.

(** The diff of the two example documents (scenarios 2 to 4). *)
Definition tags_diff : SchemaDiff :=
  {| added_paths := []; removed_paths := ["/api/foo/"];
     changed_paths := [("/api/tags/",
                        ["GET param added: query:page_size";
                         "GET response removed: 404"])] |}.


(** * Properties *)

(** ** Induction over documents *)

Lemma json_size_item l x : x ∈ l → json_size x < json_size (JList l).
Proof. induction 1; simpl in *; lia. Qed.

Lemma json_size_value (d : dict) k x :
  d !! k = Some x → json_size x < json_size (JDict d).
Proof.
  intros Hk. simpl. rewrite <-(insert_delete_id d k x Hk).
  rewrite map_fold_insert_L; [lia | intros; lia | apply lookup_delete_eq].
Qed.

Lemma json_ind' (P : json → Prop) :
  P JNull → (∀ b, P (JBool b)) → (∀ n, P (JInt n)) → (∀ r, P (JFloat r)) →
  (∀ s, P (JStr s)) →
  (∀ l, Forall P l → P (JList l)) →
  (∀ d, map_Forall (λ _, P) d → P (JDict d)) →
  ∀ v, P v.
Proof.
  intros Hnull Hbool Hint Hfloat Hstr Hlist Hdict v.
  remember (json_size v) as n eqn:Hn. revert v Hn.
  induction (lt_wf n) as [n _ IH]. intros v ->.
  destruct v as [| | | | |l|d]; auto.
  - apply Hlist, Forall_forall. intros x Hx.
    eapply IH; [|reflexivity]. by apply json_size_item.
  - apply Hdict. intros k x Hk.
    eapply IH; [|reflexivity]. by eapply json_size_value.
Qed.

(** ** [_collect_refs] *)

Lemma collect_list_fold (f : json → gset string → gset string) l (X : gset string) :
  Forall (λ v, ∀ Y, f v Y = Y ∪ f v ∅) l →
  foldl (λ refs item, f item refs) X l
  = X ∪ foldl (λ refs item, f item refs) ∅ l.
Proof.
  intros Hl. revert X. induction Hl as [|v l Hv _ IH]; intros X; simpl.
  - set_solver.
  - rewrite (IH (f v X)), (IH (f v ∅)), (Hv X). set_solver.
Qed.

Lemma collect_dict_fold (f : json → gset string → gset string) (d : dict) (X : gset string) :
  map_Forall (λ _ v, ∀ Y, f v Y = Y ∪ f v ∅) d →
  map_fold (λ _ v refs, f v refs) X d
  = X ∪ map_fold (λ _ v refs, f v refs) ∅ d.
Proof.
  intros Hd. rewrite !map_fold_foldr.
  assert (Forall (λ kv, ∀ Y, f kv.2 Y = Y ∪ f kv.2 ∅) (map_to_list d)) as Hl.
  { apply Forall_forall. intros [k v] Hkv. apply (Hd k v).
    by apply elem_of_map_to_list. }
  clear Hd. induction Hl as [|[k v] l Hv _ IH]; simpl.
  - set_solver.
  - rewrite Hv, IH. rewrite (Hv (foldr _ _ _)). set_solver.
Qed.

Lemma collect_refs_union v (X : gset string) :
  _collect_refs v X = X ∪ _collect_refs v ∅.
Proof.
  revert X. induction v as [| | | | |l IH|d IH] using json_ind'; intros X;
    simpl; try set_solver.
  - by apply collect_list_fold.
  - rewrite collect_dict_fold by done.
    rewrite (collect_dict_fold _ d (match d !! "$ref" with
                                   | Some (JStr ref) => ∅ ∪ {[ref]} | _ => ∅ end))
      by done.
    destruct (d !! "$ref") as [[]|]; set_solver.
Qed.

Lemma elem_of_collect_list r l :
  r ∈ _collect_refs (JList l) ∅ ↔ ∃ v, v ∈ l ∧ r ∈ _collect_refs v ∅.
Proof.
  simpl. induction l as [|x l IH] using rev_ind.
  - simpl. set_solver.
  - rewrite foldl_app. simpl. rewrite collect_refs_union, elem_of_union, IH.
    setoid_rewrite elem_of_app. setoid_rewrite list_elem_of_singleton.
    naive_solver.
Qed.

Lemma elem_of_collect_values r (d : dict) :
  r ∈ map_fold (λ _ v refs, _collect_refs v refs) ∅ d
  ↔ ∃ k v, d !! k = Some v ∧ r ∈ _collect_refs v ∅.
Proof.
  induction d as [|k v d Hk Hfold IH] using map_first_key_ind.
  - rewrite map_fold_empty. setoid_rewrite lookup_empty. set_solver.
  - rewrite map_fold_insert_first_key by done.
    rewrite collect_refs_union, elem_of_union, IH. split.
    + intros [(k' & v' & Hk' & Hr)|Hr].
      * exists k', v'. rewrite lookup_insert_ne; [done|]. intros ->. congruence.
      * exists k, v. by rewrite lookup_insert_eq.
    + intros (k' & v' & Hk' & Hr).
      destruct (decide (k = k')) as [->|Hne].
      * rewrite lookup_insert_eq in Hk'. naive_solver.
      * rewrite lookup_insert_ne in Hk' by done. naive_solver.
Qed.

Lemma elem_of_collect_dict r (d : dict) :
  r ∈ _collect_refs (JDict d) ∅
  ↔ d !! "$ref" = Some (JStr r) ∨ ∃ k v, d !! k = Some v ∧ r ∈ _collect_refs v ∅.
Proof.
  simpl. rewrite collect_dict_fold by (intros ???; apply collect_refs_union).
  rewrite elem_of_union, elem_of_collect_values.
  destruct (d !! "$ref") as [[]|]; set_solver.
Qed.

Lemma collect_refs_scalar v :
  match v with JList _ | JDict _ => False | _ => True end →
  _collect_refs v ∅ = ∅.
Proof. by destruct v. Qed.

(** ** String built-ins *)

Lemma startswith_app s p : startswith (p +:+ s) p = true.
Proof.
  unfold startswith. induction p as [|c p IH]; simpl.
  - by destruct s.
  - destruct (ascii_dec c c); [done|congruence].
Qed.

Lemma startswith_inv s p : startswith s p = true → ∃ r, s = p +:+ r.
Proof.
  unfold startswith. revert s. induction p as [|c p IH]; intros s Hs.
  - by exists s.
  - destruct s as [|c' s]; simpl in Hs; [done|].
    destruct (ascii_dec c c') as [->|]; [|done].
    destruct (IH s Hs) as [r ->]. by exists r.
Qed.

Lemma str_from_app p r : str_from (String.length p) (p +:+ r) = r.
Proof. induction p; simpl; [by destruct r|done]. Qed.

Lemma removeprefix_app p r : removeprefix (p +:+ r) p = r.
Proof. unfold removeprefix. by rewrite startswith_app, str_from_app. Qed.

Lemma split_nonempty sep s : split sep s ≠ [].
Proof.
  destruct s as [|c s]; simpl; [done|].
  destruct (Ascii.eqb c sep); [done|]. by destruct (split sep s).
Qed.

Lemma split_no_sep sep s : has_char sep s = false → split sep s = [s].
Proof.
  induction s as [|c s IH]; simpl; [done|].
  intros [Hc Hs]%orb_false_iff. by rewrite Hc, (IH Hs).
Qed.

Lemma split_app sep a b :
  has_char sep a = false →
  split sep (a +:+ String sep b) = a :: split sep b.
Proof.
  induction a as [|c a IH]; simpl.
  - intros _. by rewrite Ascii.eqb_refl.
  - intros [Hc Ha]%orb_false_iff. by rewrite Hc, (IH Ha).
Qed.

Lemma split_join sep parts :
  parts ≠ [] → Forall (λ p, has_char sep p = false) parts →
  split sep (join (String sep "") parts) = parts.
Proof.
  intros Hne Hall. induction Hall as [|p ps Hp Hps IH]; [done|].
  destruct ps as [|q ps]; simpl.
  - by apply split_no_sep.
  - change (p +:+ String sep "" +:+ ?r) with (p +:+ String sep r).
    rewrite split_app by done. f_equal. by apply IH.
Qed.

Lemma split_pieces sep s : Forall (λ p, has_char sep p = false) (split sep s).
Proof.
  induction s as [|c s IH]; simpl; [by repeat constructor|].
  destruct (Ascii.eqb c sep) eqn:Hc; [by constructor|].
  destruct (split sep s) as [|w ws]; [by repeat constructor; simpl; rewrite Hc|].
  inversion_clear IH. constructor; [|done]. simpl. by rewrite Hc.
Qed.

Lemma join_split sep s : join (String sep "") (split sep s) = s.
Proof.
  induction s as [|c s IH]; simpl; [done|].
  destruct (Ascii.eqb c sep) eqn:Hc.
  - apply Ascii.eqb_eq in Hc as ->.
    pose proof (split_nonempty sep s).
    destruct (split sep s) as [|w ws]; [done|]. simpl in *. by rewrite IH.
  - pose proof (split_nonempty sep s).
    destruct (split sep s) as [|w ws]; [done|].
    destruct ws; simpl in *; by rewrite <-IH.
Qed.

Lemma split_two sep s a b :
  split sep s = [a; b] ↔
  s = a +:+ String sep b ∧ has_char sep a = false ∧ has_char sep b = false.
Proof.
  split.
  - intros Hs. pose proof (split_pieces sep s) as Hp. rewrite Hs in Hp.
    inversion_clear Hp as [|?? Ha Hb]. inversion_clear Hb as [|?? Hb' _].
    split; [|done]. by rewrite <-(join_split sep s), Hs.
  - intros (-> & Ha & Hb). by rewrite split_app, split_no_sep.
Qed.

(** ** [_resolve_ref] and the reference closure *)

Lemma collect_walk_parts parts v :
  _collect_refs (walk_parts v parts) ∅ ⊆ _collect_refs v ∅.
Proof.
  revert v. induction parts as [|part parts IH]; intros v; simpl; [done|].
  destruct v as [| | | | | |d]; try set_solver.
  destruct (d !! part) as [x|] eqn:Hx; [|set_solver].
  intros r Hr. apply elem_of_collect_dict. right. exists part, x.
  split; [done|]. by apply IH.
Qed.

Lemma target_refs_bounded schema ref : target_refs schema ref ⊆ all_refs schema.
Proof.
  unfold target_refs, all_refs, _resolve_ref.
  destruct (negb _); [set_solver|]. apply collect_walk_parts.
Qed.

Lemma elem_of_resolve_fold schema (l : list string) (X : gset string) r :
  r ∈ foldl (λ refs ref,
               match _resolve_ref ref schema with
               | JNull => refs
               | obj => _collect_refs obj refs
               end) X l
  ↔ r ∈ X ∨ ∃ x, x ∈ l ∧ r ∈ target_refs schema x.
Proof.
  revert X. induction l as [|x l IH]; intros X; simpl.
  - set_solver.
  - rewrite IH. setoid_rewrite elem_of_cons.
    assert (∀ Y : gset string, match _resolve_ref x schema with
                | JNull => Y | obj => _collect_refs obj Y end
                = Y ∪ target_refs schema x) as ->.
    { intros Y. unfold target_refs.
      destruct (_resolve_ref x schema) eqn:E;
        try apply collect_refs_union. simpl. set_solver. }
    rewrite elem_of_union. naive_solver.
Qed.

Lemma elem_of_resolve_round schema (X : gset string) r :
  r ∈ resolve_round schema X
  ↔ r ∈ X ∨ ∃ x, x ∈ X ∧ r ∈ target_refs schema x.
Proof.
  unfold resolve_round. rewrite elem_of_resolve_fold.
  by setoid_rewrite elem_of_elements.
Qed.

Lemma resolve_round_incr schema (X : gset string) : X ⊆ resolve_round schema X.
Proof. intros r Hr. apply elem_of_resolve_round. by left. Qed.

Lemma resolve_round_bounded schema (X B : gset string) :
  X ⊆ B → all_refs schema ⊆ B → resolve_round schema X ⊆ B.
Proof.
  intros HX HB r [Hr|(x & _ & Hr)]%elem_of_resolve_round; [by apply HX|].
  by apply HB, (target_refs_bounded schema x).
Qed.

Lemma resolve_round_reachable schema (seeds X : gset string) :
  (∀ r, r ∈ X → reachable schema seeds r) →
  ∀ r, r ∈ resolve_round schema X → reachable schema seeds r.
Proof.
  intros HX r [Hr|(x & Hx & Hr)]%elem_of_resolve_round; [by apply HX|].
  eapply reachable_hop; [by apply HX|done].
Qed.

Lemma reachable_mono schema (X Y : gset string) r :
  (∀ x, x ∈ X → reachable schema Y x) → reachable schema X r → reachable schema Y r.
Proof.
  intros HXY. induction 1 as [r Hr|r r' _ IH Hr']; [by apply HXY|].
  by eapply reachable_hop.
Qed.

Lemma closure_loop_first fuel schema (X : gset string) :
  closure_loop (S fuel) schema X (-1)
  = closure_loop fuel schema (resolve_round schema X) (Z.of_nat (size X)).
Proof. simpl. rewrite bool_decide_eq_true_2; [done|lia]. Qed.

(** What the loop returns is a fixed point of the round that contains the
    set it started from and nothing that is not reachable from it. *)
Lemma closure_loop_round fuel schema (X R : gset string) :
  closure_loop fuel schema (resolve_round schema X) (Z.of_nat (size X)) = Some R →
  X ⊆ R ∧ resolve_round schema R = R ∧ ∀ r, r ∈ R → reachable schema X r.
Proof.
  revert X. induction fuel as [|fuel IH]; intros X; simpl; [done|].
  case_bool_decide as Hsize.
  - intros (Hsub & Hfix & Hreach)%IH. split_and!; [|done|].
    + etrans; [apply resolve_round_incr|done].
    + intros r Hr. eapply reachable_mono; [|by apply Hreach].
      apply resolve_round_reachable. by constructor.
  - intros [= <-].
    assert (X = resolve_round schema X) as Heq.
    { apply set_subseteq_size_eq; [apply resolve_round_incr|lia]. }
    rewrite <-!Heq. split_and!; [done..|by constructor].
Qed.

Lemma closure_loop_reachable fuel schema (seeds R : gset string) :
  closure_loop fuel schema seeds (-1) = Some R →
  ∀ r, r ∈ R ↔ reachable schema seeds r.
Proof.
  destruct fuel as [|fuel]; [done|]. rewrite closure_loop_first.
  intros (Hsub & Hfix & Hreach)%closure_loop_round r. split; [apply Hreach|].
  induction 1 as [r Hr|r r' _ IH Hr']; [by apply Hsub|].
  rewrite <-Hfix. apply elem_of_resolve_round. eauto.
Qed.

(** The loop stops: the set only grows and stays within [B]. *)
Lemma closure_loop_stops schema (B : gset string) k (X : gset string) :
  all_refs schema ⊆ B → X ⊆ B → size B - size X ≤ k →
  ∃ R, closure_loop (S k) schema (resolve_round schema X) (Z.of_nat (size X)) = Some R.
Proof.
  intros HB. revert X. induction k as [|k IH]; intros X HX Hk.
  - simpl. case_bool_decide as Hsize; [|eauto]. exfalso.
    pose proof (subseteq_size _ _ (resolve_round_bounded schema X B HX HB)).
    pose proof (subseteq_size _ _ (resolve_round_incr schema X)).
    pose proof (subseteq_size _ _ HX). lia.
  - cbn [closure_loop]. case_bool_decide as Hsize; [|eauto].
    apply IH; [by apply resolve_round_bounded|].
    pose proof (subseteq_size _ _ (resolve_round_bounded schema X B HX HB)).
    pose proof (subseteq_size _ _ (resolve_round_incr schema X)). lia.
Qed.

Lemma closure_loop_more_fuel fuel fuel' schema (X R : gset string) p :
  fuel ≤ fuel' → closure_loop fuel schema X p = Some R →
  closure_loop fuel' schema X p = Some R.
Proof.
  intros Hle. revert fuel' Hle X p.
  induction fuel as [|fuel IH]; intros [|fuel'] Hle X p; simpl; try done; [lia|].
  case_bool_decide; [|done]. apply IH. lia.
Qed.

(** ** The monadic loops *)

Lemma foldM_app {A B} (f : B → A → result B) b l1 l2 :
  foldM f b (l1 ++ l2) = b' ← foldM f b l1; foldM f b' l2.
Proof.
  revert b. induction l1 as [|x l1 IH]; intros b; simpl; [done|].
  destruct (f b x); simpl; [apply IH|done].
Qed.

Lemma foldM_pure {A B} (f : B → A → result B) (g : B → A → B) b l :
  (∀ b x, f b x = Ok (g b x)) → foldM f b l = Ok (foldl g b l).
Proof.
  intros Hf. revert b. induction l as [|x l IH]; intros b; simpl; [done|].
  rewrite Hf. simpl. apply IH.
Qed.

(** ** Keeping paths *)

Lemma keep_path_ok all_paths kept pattern kept' :
  keep_path all_paths kept pattern = Ok kept' →
  kept' = match dict_of all_paths !! pattern with
          | Some item => <[pattern := item]> kept
          | None => kept
          end.
Proof.
  unfold keep_path. destruct all_paths as [| | | |s|l|d]; simpl; try done.
  - destruct (is_substring pattern s); simpl; [done|]. by intros [= <-].
  - case_bool_decide; simpl; [done|]. by intros [= <-].
  - case_bool_decide as Hp; simpl.
    + destruct Hp as [item Hp]. rewrite Hp. simpl. by intros [= <-].
    + apply eq_None_not_Some in Hp. rewrite Hp. by intros [= <-].
Qed.

Lemma keep_path_dict (d : dict) kept pattern :
  keep_path (JDict d) kept pattern
  = Ok (match d !! pattern with
        | Some item => <[pattern := item]> kept
        | None => kept
        end).
Proof.
  unfold keep_path. simpl. case_bool_decide as Hp; simpl.
  - destruct Hp as [item Hp]. by rewrite Hp.
  - apply eq_None_not_Some in Hp. by rewrite Hp.
Qed.

Lemma kept_paths_lookup all_paths paths kept0 kept :
  foldM (keep_path all_paths) kept0 paths = Ok kept →
  ∀ p, kept !! p = match (if decide (p ∈ paths) then dict_of all_paths !! p else None) with
                   | Some item => Some item
                   | None => kept0 !! p
                   end.
Proof.
  revert kept0. induction paths as [|x paths IH]; intros kept0 Hfold p;
    simpl in Hfold.
  - injection Hfold as <-. rewrite decide_False; [done|set_solver].
  - destruct (keep_path all_paths kept0 x) as [k1|] eqn:Hk; simpl in Hfold; [|done].
    apply keep_path_ok in Hk. rewrite (IH _ Hfold p).
    destruct (decide (p = x)) as [->|Hne].
    + rewrite (decide_True (P := x ∈ x :: paths)) by set_solver.
      subst k1. destruct (dict_of all_paths !! x) eqn:Hx.
      * rewrite lookup_insert_eq. by destruct (decide _).
      * by destruct (decide _).
    + assert (k1 !! p = kept0 !! p) as ->.
      { subst k1. destruct (dict_of all_paths !! x); [|done].
        by rewrite lookup_insert_ne. }
      destruct (decide (p ∈ paths)).
      * by rewrite decide_True by set_solver.
      * by rewrite decide_False by set_solver.
Qed.

Lemma kept_paths_dict (d : dict) paths kept0 :
  ∃ kept, foldM (keep_path (JDict d)) kept0 paths = Ok kept.
Proof.
  revert kept0. induction paths as [|x paths IH]; intros kept0; simpl; [eauto|].
  rewrite keep_path_dict. simpl. apply IH.
Qed.

Lemma kept_paths_sub all_paths paths kept p item :
  foldM (keep_path all_paths) ∅ paths = Ok kept →
  kept !! p = Some item → p ∈ paths ∧ dict_of all_paths !! p = Some item.
Proof.
  intros Hk Hp. rewrite (kept_paths_lookup _ _ _ _ Hk p) in Hp.
  destruct (decide (p ∈ paths)); [|by rewrite lookup_empty in Hp].
  destruct (dict_of all_paths !! p); [by simplify_eq|by rewrite lookup_empty in Hp].
Qed.

(** ** Pruning components *)

Lemma parse_component_ref_spec ref c n :
  parse_component_ref ref = Some (c, n) ↔
  ref = component_ref c n ∧ has_char "/" c = false ∧ has_char "/" n = false.
Proof.
  unfold parse_component_ref, component_ref. split.
  - destruct (startswith ref "#/components/") eqn:Hpre; [|done].
    apply startswith_inv in Hpre as [rest ->]. rewrite removeprefix_app.
    destruct (split "/" rest) as [|a [|b [|]]] eqn:Hs; try done.
    intros [= -> ->]. by apply split_two in Hs as (-> & ? & ?).
  - intros (-> & Hc & Hn). rewrite startswith_app, removeprefix_app.
    change (c +:+ "/" +:+ n) with (c +:+ String "/" n).
    by rewrite split_app, split_no_sep.
Qed.

Lemma prune_ref_ok components pruned ref pruned' :
  prune_ref components pruned ref = Ok pruned' →
  pruned' = match parse_component_ref ref with
            | Some (c, n) =>
                match component_entry components c n with
                | Some v => <[c := <[n := v]> (default ∅ (pruned !! c))]> pruned
                | None => pruned
                end
            | None => pruned
            end.
Proof.
  unfold prune_ref, parse_component_ref.
  destruct (startswith ref "#/components/"); simpl; [|by intros [= <-]].
  destruct (split "/" _) as [|c [|n [|]]]; try by intros [= <-].
  unfold component_entry.
  destruct components as [| | | |s|l|d]; simpl; try done.
  - destruct (is_substring c s); simpl; [done|by intros [= <-]].
  - case_bool_decide; simpl; [done|by intros [= <-]].
  - case_bool_decide as Hc; simpl.
    2:{ apply eq_None_not_Some in Hc. rewrite Hc. by intros [= <-]. }
    destruct Hc as [e Hc]. rewrite Hc. simpl.
    destruct e as [| | | |s|l|e]; simpl; try done.
    + destruct (is_substring n s); simpl; [done|by intros [= <-]].
    + case_bool_decide; simpl; [done|by intros [= <-]].
    + case_bool_decide as Hn; simpl.
      * destruct Hn as [v Hn]. rewrite Hn. simpl. by intros [= <-].
      * apply eq_None_not_Some in Hn. rewrite Hn. by intros [= <-].
Qed.

(** On a mapping of mappings the pruner never raises. *)
Lemma prune_ref_typed (m : gmap string dict) pruned ref :
  ∃ pruned', prune_ref (JDict (JDict <$> m)) pruned ref = Ok pruned'.
Proof.
  unfold prune_ref. destruct (startswith ref "#/components/"); simpl; [|eauto].
  destruct (split "/" _) as [|c [|n [|]]]; eauto.
  case_bool_decide as Hc; simpl; [|eauto].
  destruct Hc as [e Hc]. rewrite Hc. simpl.
  rewrite lookup_fmap in Hc. destruct (m !! c) as [e'|]; simplify_eq/=.
  case_bool_decide as Hn; simpl; [|eauto].
  destruct Hn as [v Hn]. rewrite Hn. simpl. eauto.
Qed.

Lemma prune_typed (m : gmap string dict) pruned refs :
  ∃ pruned', foldM (prune_ref (JDict (JDict <$> m))) pruned refs = Ok pruned'.
Proof.
  revert pruned. induction refs as [|r refs IH]; intros pruned; simpl; [eauto|].
  destruct (prune_ref_typed m pruned r) as [p1 ->]. simpl. apply IH.
Qed.

Lemma pruned_entry_insert pruned c n v c' n' :
  pruned_entry (<[c := <[n := v]> (default ∅ (pruned !! c))]> pruned) c' n'
  = if decide (c = c' ∧ n = n') then Some v else pruned_entry pruned c' n'.
Proof.
  unfold pruned_entry. destruct (decide (c = c')) as [->|Hc].
  - rewrite lookup_insert_eq. simpl. destruct (decide (n = n')) as [->|Hn].
    + rewrite lookup_insert_eq. by rewrite decide_True.
    + rewrite lookup_insert_ne by done. rewrite decide_False by naive_solver.
      by destruct (pruned !! c').
  - rewrite lookup_insert_ne by done. by rewrite decide_False by naive_solver.
Qed.

Lemma prune_fold_entry components refs pruned0 pruned c n :
  foldM (prune_ref components) pruned0 refs = Ok pruned →
  pruned_entry pruned c n
  = match (if decide (Exists (λ r, parse_component_ref r = Some (c, n)) refs)
           then component_entry components c n else None) with
    | Some v => Some v
    | None => pruned_entry pruned0 c n
    end.
Proof.
  revert pruned0. induction refs as [|r refs IH]; intros pruned0 Hfold;
    simpl in Hfold.
  - injection Hfold as <-. rewrite decide_False; [done|]. by intros ?%Exists_nil.
  - destruct (prune_ref components pruned0 r) as [p1|] eqn:Hp; simpl in Hfold; [|done].
    apply prune_ref_ok in Hp. rewrite (IH _ Hfold).
    assert (pruned_entry p1 c n
            = match (if decide (parse_component_ref r = Some (c, n))
                     then component_entry components c n else None) with
              | Some v => Some v
              | None => pruned_entry pruned0 c n
              end) as ->.
    { subst p1. destruct (parse_component_ref r) as [[c' n']|] eqn:Hr.
      - destruct (decide (Some (c', n') = Some (c, n))) as [[= -> ->]|Hne].
        + destruct (component_entry components c n); [|done].
          rewrite pruned_entry_insert. by rewrite decide_True.
        + destruct (component_entry components c' n'); [|done].
          rewrite pruned_entry_insert. rewrite decide_False; [done|].
          intros [-> ->]. done.
      - by rewrite decide_False. }
    destruct (decide (parse_component_ref r = Some (c, n))) as [Hr|Hr].
    + rewrite (decide_True (P := Exists _ (r :: refs))) by (by left).
      destruct (decide (Exists _ refs)); by destruct (component_entry _ _ _).
    + destruct (decide (Exists _ refs)) as [He|He].
      * by rewrite (decide_True (P := Exists _ (r :: refs))) by (by right).
      * rewrite (decide_False (P := Exists _ (r :: refs))); [done|].
        by intros [?|?]%Exists_cons.
Qed.

Lemma prune_fold_nonempty components refs pruned0 pruned :
  foldM (prune_ref components) pruned0 refs = Ok pruned →
  (∀ c e, pruned0 !! c = Some e → e ≠ ∅) →
  ∀ c e, pruned !! c = Some e → e ≠ ∅.
Proof.
  revert pruned0. induction refs as [|r refs IH]; intros pruned0; simpl.
  - by intros [= <-].
  - destruct (prune_ref components pruned0 r) as [p1|] eqn:Hp; simpl; [|done].
    apply prune_ref_ok in Hp. intros Hfold H0. apply (IH _ Hfold).
    subst p1. destruct (parse_component_ref r) as [[c' n']|]; [|done].
    destruct (component_entry components c' n'); [|done].
    intros c e. destruct (decide (c' = c)) as [->|Hne].
    + rewrite lookup_insert_eq. intros [= <-]. apply insert_non_empty.
    + rewrite lookup_insert_ne by done. apply H0.
Qed.

(** The entries the pruner keeps. *)
Lemma prune_components_entry components (needed_refs : gset string) pruned c n v :
  _prune_components components needed_refs = Ok pruned →
  pruned_entry pruned c n = Some v ↔
  component_ref c n ∈ needed_refs ∧ has_char "/" c = false
  ∧ has_char "/" n = false ∧ component_entry components c n = Some v.
Proof.
  intros Hp. rewrite (prune_fold_entry _ _ _ _ c n Hp).
  change (pruned_entry ∅ c n) with (@None json).
  destruct (decide (Exists _ _)) as [He|He].
  - apply Exists_exists in He as (r & Hr%elem_of_elements & Hparse).
    apply parse_component_ref_spec in Hparse as (-> & ? & ?).
    destruct (component_entry components c n); naive_solver.
  - split; [done|]. intros (Hr & Hc & Hn & _). destruct He.
    apply Exists_exists. exists (component_ref c n).
    split; [by apply elem_of_elements|]. by apply parse_component_ref_spec.
Qed.

Lemma prune_components_nonempty components (needed_refs : gset string) pruned :
  _prune_components components needed_refs = Ok pruned →
  ∀ c e, pruned !! c = Some e → e ≠ ∅.
Proof.
  intros Hp. apply (prune_fold_nonempty _ _ _ _ Hp). intros c e.
  by rewrite lookup_empty.
Qed.

Lemma pruned_eq (m1 m2 : gmap string dict) :
  (∀ c e, m1 !! c = Some e → e ≠ ∅) →
  (∀ c e, m2 !! c = Some e → e ≠ ∅) →
  (∀ c n, pruned_entry m1 c n = pruned_entry m2 c n) →
  m1 = m2.
Proof.
  intros H1 H2 Heq. apply map_eq. intros c.
  destruct (m1 !! c) as [e1|] eqn:E1, (m2 !! c) as [e2|] eqn:E2; [|..|done].
  - f_equal. apply map_eq. intros n. specialize (Heq c n).
    unfold pruned_entry in Heq. by rewrite E1, E2 in Heq.
  - destruct (map_choose e1 (H1 _ _ E1)) as (n & v & Hn).
    specialize (Heq c n). unfold pruned_entry in Heq.
    rewrite E1, E2 in Heq. simpl in Heq. congruence.
  - destruct (map_choose e2 (H2 _ _ E2)) as (n & v & Hn).
    specialize (Heq c n). unfold pruned_entry in Heq.
    rewrite E1, E2 in Heq. simpl in Heq. congruence.
Qed.

(** ** [extract_paths] *)

Lemma extract_paths_inv schema paths result :
  extract_paths schema paths = Ok result →
  ∃ kept needed pruned,
    foldM (keep_path (dict_get schema "paths" (JDict ∅))) ∅ paths = Ok kept
    ∧ needed_closure schema kept = Some needed
    ∧ _prune_components (dict_get schema "components" (JDict ∅)) needed = Ok pruned
    ∧ result = subset_document schema kept pruned.
Proof.
  unfold extract_paths. intros Hx.
  destruct (foldM _ _ paths) as [kept|] eqn:Hk; simpl in Hx; [|done].
  destruct (needed_closure schema kept) as [needed|] eqn:Hn; [|done].
  destruct (_prune_components _ needed) as [pruned|] eqn:Hp; simpl in Hx; [|done].
  exists kept, needed, pruned. split_and!; try done. by injection Hx as <-.
Qed.

Lemma subset_document_paths schema kept pruned :
  dict_get (subset_document schema kept pruned) "paths" (JDict ∅) = JDict kept.
Proof.
  unfold subset_document, dict_get. destruct (decide _).
  - by rewrite lookup_insert_eq.
  - rewrite lookup_insert_ne by done. by rewrite lookup_insert_eq.
Qed.

Lemma subset_document_components schema kept pruned :
  dict_get (subset_document schema kept pruned) "components" (JDict ∅)
  = JDict (JDict <$> pruned).
Proof.
  unfold subset_document, dict_get. destruct (decide _) as [->|].
  - rewrite !lookup_insert_ne by done. by rewrite lookup_empty, fmap_empty.
  - by rewrite lookup_insert_eq.
Qed.

Lemma subset_document_info schema kept pruned :
  dict_get (subset_document schema kept pruned) "info" (JDict ∅)
  = dict_get schema "info" (JDict ∅).
Proof.
  unfold subset_document. unfold dict_get at 1. destruct (decide _).
  - rewrite lookup_insert_ne by done. by rewrite lookup_insert_eq.
  - rewrite !lookup_insert_ne by done. by rewrite lookup_insert_eq.
Qed.

Lemma subset_document_openapi schema kept pruned :
  dict_get (subset_document schema kept pruned) "openapi" (JStr "3.0.0")
  = dict_get schema "openapi" (JStr "3.0.0").
Proof.
  unfold subset_document. unfold dict_get at 1. destruct (decide _).
  - rewrite !lookup_insert_ne by done. by rewrite lookup_insert_eq.
  - rewrite !lookup_insert_ne by done. by rewrite lookup_insert_eq.
Qed.

Lemma collect_dict_get schema key :
  _collect_refs (dict_get schema key (JDict ∅)) ∅ ⊆ all_refs schema.
Proof.
  unfold dict_get, all_refs. destruct (schema !! key) as [v|] eqn:Hv.
  2:{ intros r Hr. by apply elem_of_collect_dict in Hr as [?|(? & ? & ? & _)]. }
  intros r Hr. apply elem_of_collect_dict. right. eauto.
Qed.

Lemma kept_refs_bounded schema paths kept :
  foldM (keep_path (dict_get schema "paths" (JDict ∅))) ∅ paths = Ok kept →
  _collect_refs (JDict kept) ∅ ⊆ all_refs schema.
Proof.
  intros Hk r Hr. apply (collect_dict_get schema "paths").
  assert (∀ k v, kept !! k = Some v →
    dict_get schema "paths" (JDict ∅)
    = JDict (dict_of (dict_get schema "paths" (JDict ∅)))
    ∧ dict_of (dict_get schema "paths" (JDict ∅)) !! k = Some v) as Hsub.
  { intros k v Hkv. destruct (kept_paths_sub _ _ _ _ _ Hk Hkv) as [_ Hd].
    split; [|done]. by destruct (dict_get schema "paths" (JDict ∅)). }
  apply elem_of_collect_dict in Hr as [Hr|(k & v & Hkv & Hr)].
  - destruct (Hsub _ _ Hr) as [-> Hd]. apply elem_of_collect_dict. by left.
  - destruct (Hsub _ _ Hkv) as [-> Hd]. apply elem_of_collect_dict. right. eauto.
Qed.

Lemma needed_closure_total schema paths kept :
  foldM (keep_path (dict_get schema "paths" (JDict ∅))) ∅ paths = Ok kept →
  ∃ needed, needed_closure schema kept = Some needed.
Proof.
  intros Hk. unfold needed_closure. rewrite closure_loop_first.
  apply (closure_loop_stops schema (all_refs schema)); [done| |lia].
  by eapply kept_refs_bounded.
Qed.

Lemma needed_closure_reachable schema kept needed :
  needed_closure schema kept = Some needed →
  ∀ r, r ∈ needed ↔ reachable schema (_collect_refs (JDict kept) ∅) r.
Proof. apply closure_loop_reachable. Qed.

(** Resolving a two-segment component pointer. *)
Lemma resolve_component_ref schema c n :
  has_char "/" c = false → has_char "/" n = false →
  _resolve_ref (component_ref c n) schema
  = default JNull (component_entry (dict_get schema "components" (JDict ∅)) c n).
Proof.
  intros Hc Hn. unfold _resolve_ref, component_ref.
  change ("#/components/" +:+ c +:+ "/" +:+ n)
    with ("#/" +:+ ("components" +:+ String "/" (c +:+ String "/" n))).
  rewrite startswith_app. simpl negb. cbn match.
  change 2 with (String.length "#/"). rewrite str_from_app.
  rewrite split_app by done. rewrite split_app by done.
  rewrite split_no_sep by done.
  unfold component_entry, dict_get. simpl.
  destruct (schema !! "components") as [[| | | | | |d]|]; simpl; try done.
  by destruct (d !! c) as [[| | | | | |e]|].
Qed.

Lemma component_entry_pruned (pruned : gmap string dict) c n :
  component_entry (JDict (JDict <$> pruned)) c n = pruned_entry pruned c n.
Proof.
  unfold component_entry, pruned_entry. simpl. rewrite lookup_fmap.
  by destruct (pruned !! c).
Qed.

Lemma keep_path_raises all_paths kept pattern e :
  keep_path all_paths kept pattern = Raise e → e = TypeError.
Proof.
  unfold keep_path. destruct all_paths as [| | | |s|l|d]; simpl;
    try by intros [= <-].
  - destruct (is_substring pattern s); simpl; by intros [= <-].
  - case_bool_decide; simpl; by intros [= <-].
  - case_bool_decide as Hp; simpl; [|done].
    destruct Hp as [item Hp]. by rewrite Hp.
Qed.

Lemma prune_ref_raises components pruned ref e :
  prune_ref components pruned ref = Raise e → e = TypeError.
Proof.
  unfold prune_ref. destruct (startswith ref "#/components/"); simpl; [|done].
  destruct (split "/" _) as [|c [|n [|]]]; try done.
  destruct components as [| | | |s|l|d]; simpl; try by intros [= <-].
  - destruct (is_substring c s); simpl; by intros [= <-].
  - case_bool_decide; simpl; by intros [= <-].
  - case_bool_decide as Hc; simpl; [|done].
    destruct Hc as [x Hc]. rewrite Hc. simpl.
    destruct x as [| | | |s|l|x]; simpl; try by intros [= <-].
    + destruct (is_substring n s); simpl; by intros [= <-].
    + case_bool_decide; simpl; by intros [= <-].
    + case_bool_decide as Hn; simpl; [|done].
      destruct Hn as [v Hn]. by rewrite Hn.
Qed.

Lemma foldM_raises {A B} (f : B → A → result B) (P : exn → Prop) b l e :
  (∀ b x e, f b x = Raise e → P e) → foldM f b l = Raise e → P e.
Proof.
  intros Hf. revert b. induction l as [|x l IH]; intros b; simpl; [done|].
  destruct (f b x) eqn:Hfx; simpl; [apply IH|]. intros [= <-]. eauto.
Qed.

(** [extract_paths] raises nothing but [TypeError], and that only on a
    document whose [paths] or [components] are not mappings of mappings. *)
Lemma extract_paths_raises schema paths e :
  extract_paths schema paths = Raise e → e = TypeError.
Proof.
  unfold extract_paths.
  destruct (foldM _ _ paths) as [kept|e'] eqn:Hk; simpl.
  2:{ intros [= <-]. eapply (foldM_raises _ (λ e, e = TypeError)), Hk.
      intros ???. apply keep_path_raises. }
  destruct (needed_closure_total _ _ _ Hk) as [needed ->].
  destruct (_prune_components _ needed) as [pruned|e'] eqn:Hp; simpl; [done|].
  intros [= <-]. eapply (foldM_raises _ (λ e, e = TypeError)), Hp.
  intros ???. apply prune_ref_raises.
Qed.

Lemma extract_paths_typed schema paths (d : dict) (m : gmap string dict) :
  dict_get schema "paths" (JDict ∅) = JDict d →
  dict_get schema "components" (JDict ∅) = JDict (JDict <$> m) →
  ∃ result, extract_paths schema paths = Ok result.
Proof.
  intros Hd Hm. unfold extract_paths. rewrite Hd, Hm.
  destruct (kept_paths_dict d paths ∅) as [kept Hk]. rewrite Hk. simpl.
  rewrite <-Hd in Hk. destruct (needed_closure_total _ _ _ Hk) as [needed ->].
  destruct (prune_typed m ∅ (elements needed)) as [pruned Hp].
  unfold _prune_components. rewrite Hp. simpl. eauto.
Qed.

Lemma reachable_bounded schema (seeds : gset string) r :
  reachable schema seeds r → r ∈ seeds ∪ all_refs schema.
Proof.
  induction 1 as [r Hr|r r' _ _ Hr']; [set_solver|].
  apply elem_of_union_r. by apply (target_refs_bounded schema r).
Qed.

(** C9.  The reference closure of [extract_paths] terminates:
    [_collect_refs] is a total function of the literal syntax of its
    argument alone (it adds to the set what it finds in the value, whatever
    the set held); a round of the loop never shrinks the set; from any
    seeds the loop stops within [size (seeds ∪ all_refs schema) + 2] loop
    tests, at a fixed point of the round that lies between the seeds and
    the [$ref] strings written in the document; and the budget
    [extract_paths] gives the loop is never used up. *)
Theorem closure_terminates (schema : dict) :
  (∀ obj refs, _collect_refs obj refs = refs ∪ _collect_refs obj ∅)
  ∧ (∀ refs, refs ⊆ resolve_round schema refs)
  ∧ (∀ seeds, ∃ refs,
       closure_loop (S (S (size (seeds ∪ all_refs schema)))) schema seeds (-1)
       = Some refs
       ∧ seeds ⊆ refs ∧ refs ⊆ seeds ∪ all_refs schema
       ∧ resolve_round schema refs = refs)
  ∧ (∀ paths, extract_paths schema paths ≠ Raise OutOfFuel).
Proof.
  split_and!.
  - apply collect_refs_union.
  - apply resolve_round_incr.
  - intros seeds. rewrite closure_loop_first.
    destruct (closure_loop_stops schema (seeds ∪ all_refs schema)
                (size (seeds ∪ all_refs schema)) seeds) as [refs Hrefs];
      [set_solver|set_solver|lia|].
    exists refs. split; [done|].
    destruct (closure_loop_round _ _ _ _ Hrefs) as (Hsub & Hfix & Hreach).
    split_and!; [done| |done].
    intros r Hr. by apply reachable_bounded, Hreach.
  - intros paths Hx. by apply extract_paths_raises in Hx.
Qed.

(** C7.  Extraction is monotone in the patterns: with [P1 ⊆ P2], every
    path key of [extract_paths(S, P1)] is a path key of
    [extract_paths(S, P2)]. *)
Theorem extract_monotone schema (paths1 paths2 : list string) result1 result2 :
  paths1 ⊆ paths2 →
  extract_paths schema paths1 = Ok result1 →
  extract_paths schema paths2 = Ok result2 →
  path_keys result1 ⊆ path_keys result2.
Proof.
  intros Hsub (k1 & ? & ? & Hk1 & _ & _ & ->)%extract_paths_inv
              (k2 & ? & ? & Hk2 & _ & _ & ->)%extract_paths_inv.
  unfold path_keys. rewrite !subset_document_paths. simpl.
  intros p [item Hp]%elem_of_dom. apply elem_of_dom.
  destruct (kept_paths_sub _ _ _ _ _ Hk1 Hp) as [Hin Hitem].
  rewrite (kept_paths_lookup _ _ _ _ Hk2 p).
  rewrite decide_True by by apply Hsub. rewrite Hitem. eauto.
Qed.

Lemma extract_monotone_witness :
  path_keys two_hop_subset ⊆ path_keys two_hop_subset.
Proof.
  apply (extract_monotone two_hop_schema ["/api/tags/"]
           ["/api/tags/"; "/api/missing/"]).
  - set_solver.
  - vm_compute. reflexivity.
  - vm_compute. reflexivity.
Defined.

(** C1.  [extract_paths] breaks the claim, and the self-containedness its
    own docstring promises, at [deep_pointer_schema]: the path-item refers
    to [#/components/schemas/Tag/properties/child], which resolves in the
    source; the loop follows that pointer and keeps [Other], but the pruner
    skips every pointer that has not exactly two segments, so the result
    carries the reference without its target. *)
Lemma closure_incomplete_deep_pointer :
  extract_paths deep_pointer_schema ["/api/tags/"] = Ok deep_pointer_subset
  ∧ _resolve_ref "#/components/schemas/Tag/properties/child" deep_pointer_schema
    = ref_to "#/components/schemas/Other"
  ∧ ¬ self_contained deep_pointer_subset.
Proof.
  split_and!; [vm_compute; reflexivity..|].
  intros Hself.
  destruct (Hself "/api/tags/"
              (tags_item "#/components/schemas/Tag/properties/child")
              "#/components/schemas/Tag/properties/child") as [H|H].
  - vm_compute. reflexivity.
  - vm_compute. reflexivity.
  - vm_compute in H. discriminate.
  - apply H. vm_compute. reflexivity.
Qed.

(** Re-keeping the kept paths changes nothing. *)
Lemma kept_paths_again all_paths paths kept :
  foldM (keep_path all_paths) ∅ paths = Ok kept →
  foldM (keep_path (JDict kept)) ∅ paths = Ok kept.
Proof.
  intros Hk. destruct (kept_paths_dict kept paths ∅) as [kept' Hk'].
  rewrite Hk'. f_equal. apply map_eq. intros p.
  rewrite (kept_paths_lookup _ _ _ _ Hk' p). simpl.
  rewrite (kept_paths_lookup _ _ _ _ Hk p).
  destruct (decide (p ∈ paths)); [|done].
  by destruct (dict_of all_paths !! p).
Qed.

(** C2.  [extract_paths] breaks the claim at [deep_pointer_schema], through
    the same defect as C1: the first result keeps [Other], reached through
    the deep pointer, without the target of that pointer; re-extracting the
    result cannot follow the pointer any more and drops [components]
    altogether. *)
Lemma extract_not_idempotent :
  extract_paths deep_pointer_schema ["/api/tags/"] = Ok deep_pointer_subset
  ∧ extract_paths deep_pointer_subset ["/api/tags/"] ≠ Ok deep_pointer_subset.
Proof.
  split; [vm_compute; reflexivity|]. intros Heq.
  apply (f_equal (λ r, match r with
                       | Ok d => bool_decide (is_Some (d !! "components"))
                       | Raise _ => false
                       end)) in Heq.
  vm_compute in Heq. discriminate.
Qed.

(** ** [_resolve_ref] against the specification's wording *)

Lemma points_to_walk v parts target :
  points_to v parts target → walk_parts v parts = target.
Proof. induction 1 as [|d part parts v target Hv _ IH]; simpl; [done|]. by rewrite Hv. Qed.

Lemma walk_parts_absent v parts :
  (∀ target, ¬ points_to v parts target) → walk_parts v parts = JNull.
Proof.
  revert v. induction parts as [|part parts IH]; intros v Hno; simpl.
  - destruct (Hno v). constructor.
  - destruct v as [| | | | | |d]; try done.
    destruct (d !! part) as [x|] eqn:Hx; [|done].
    apply IH. intros target Ht. apply (Hno target). by econstructor.
Qed.

Lemma resolve_ref_walk (rest : string) (root : dict) :
  _resolve_ref ("#/" +:+ rest) root = walk_parts (JDict root) (split "/" rest).
Proof.
  unfold _resolve_ref. rewrite startswith_app. simpl negb. cbn match.
  change 2 with (String.length "#/"). by rewrite str_from_app.
Qed.

(** The pointer [#/k1/.../kn] reads [root[k1]...[kn]]. *)
Lemma resolve_ref_join (root : dict) parts target :
  parts ≠ [] → Forall (λ p, has_char "/" p = false) parts →
  points_to (JDict root) parts target →
  _resolve_ref ("#/" +:+ join "/" parts) root = target.
Proof.
  intros Hne Hparts Hpt. rewrite resolve_ref_walk, (split_join "/" parts) by done.
  by apply points_to_walk.
Qed.

(** C8.  [_resolve_ref] returns absent for a reference that does not begin
    with [#/]; otherwise it splits what follows on [/] and walks the root:
    it returns the value the components point to when every step finds a
    mapping containing the next component, and absent when some step does
    not.  It is a total function of its arguments: it raises nothing and
    has no effect on the root. *)
Theorem resolve_ref_spec (ref : string) (root : dict) :
  (startswith ref "#/" = false → _resolve_ref ref root = JNull)
  ∧ (∀ rest, ref = "#/" +:+ rest →
       (∀ target, points_to (JDict root) (split "/" rest) target →
                  _resolve_ref ref root = target)
       ∧ ((∀ target, ¬ points_to (JDict root) (split "/" rest) target) →
          _resolve_ref ref root = JNull)).
Proof.
  split.
  - intros Hpre. unfold _resolve_ref. by rewrite Hpre.
  - intros rest ->. rewrite resolve_ref_walk.
    split; [apply points_to_walk|apply walk_parts_absent].
Qed.

(** ** Sorting *)

Lemma elem_of_sorted (X : gset string) k : k ∈ sorted X ↔ k ∈ X.
Proof. unfold sorted. by rewrite merge_sort_Permutation, elem_of_elements. Qed.

Lemma sorted_empty : sorted ∅ = [].
Proof. unfold sorted. by rewrite elements_empty. Qed.

Lemma NoDup_sorted (X : gset string) : NoDup (sorted X).
Proof. unfold sorted. rewrite merge_sort_Permutation. apply NoDup_elements. Qed.

Lemma Sorted_sorted (X : gset string) : Sorted String.le (sorted X).
Proof. apply (Sorted_merge_sort String.le). Qed.

(** ** Loops that append *)

Lemma foldl_append {A} (g : A → list string) (acc : list string) (l : list A) :
  foldl (λ diffs x, diffs ++ g x) acc l = acc ++ (l ≫= g).
Proof.
  revert acc. induction l as [|x l IH]; intros acc; simpl.
  - by rewrite app_nil_r.
  - rewrite IH. by rewrite app_assoc.
Qed.

Lemma list_bind_ext_in {A B} (f g : A → list B) (l : list A) :
  (∀ x, x ∈ l → f x = g x) → l ≫= f = l ≫= g.
Proof.
  induction l as [|x l IH]; intros Hfg; [done|].
  cbn. rewrite (Hfg x) by left. f_equal. apply IH. intros y Hy. apply Hfg. by right.
Qed.

Lemma list_bind_singleton {A B} (f : A → B) (l : list A) :
  l ≫= (λ x, [f x]) = f <$> l.
Proof. induction l as [|x l IH]; [done|]. cbn. by rewrite IH. Qed.

Lemma foldM_ext {A B} (f g : B → A → result B) b l :
  (∀ b x, f b x = g b x) → foldM f b l = foldM g b l.
Proof.
  intros Hfg. revert b. induction l as [|x l IH]; intros b; simpl; [done|].
  rewrite Hfg. destruct (g b x); simpl; [apply IH|done].
Qed.

Lemma foldM_append {A} (g : A → result (list string)) (acc : list string) (l : list A) :
  foldM (λ diffs x, ds ← g x; Ok (diffs ++ ds)) acc l
  = (λ dss, acc ++ concat dss) <$> map_results g l.
Proof.
  revert acc. induction l as [|x l IH]; intros acc; simpl.
  - by rewrite app_nil_r.
  - destruct (g x) as [ds|e]; simpl; [|done]. rewrite IH.
    destruct (map_results g l) as [dss|e]; simpl; [|done]. by rewrite app_assoc.
Qed.

Lemma map_results_filter {A B} (f g : A → result (list B)) (keep : A → bool) (l : list A) :
  (∀ x, f x = if keep x then g x else Ok []) →
  (λ dss, concat dss) <$> map_results f l
  = (λ dss, concat dss) <$> map_results g (filter (λ x, keep x) l).
Proof.
  intros Hf. induction l as [|x l IH]; [done|].
  rewrite filter_cons. cbn [map_results]. rewrite Hf.
  destruct (decide (keep x)) as [Hk|Hk].
  - apply Is_true_true in Hk. rewrite Hk.
    cbn [map_results]. destruct (g x) as [y|e]; simpl; [|done].
    destruct (map_results f l) as [ys|e], (map_results g (filter _ l)) as [zs|e'];
      simpl in *; simplify_eq; congruence.
  - apply Is_true_false in Hk. rewrite Hk. simpl.
    destruct (map_results f l) as [ys|e]; simpl in *; by rewrite <-?IH.
Qed.

(** ** The operation differ *)

Section DiffProofs.
Context `{TextBuiltins}.

Lemma param_table_lookup (params : list json) (table : dict) key :
  param_table (JList params) = Ok table →
  table !! key = last (filter (λ p, _param_key p = Ok key) params).
Proof.
  unfold param_table. simpl. revert table.
  induction params as [|p params IH] using rev_ind; intros table.
  - by intros [= <-].
  - rewrite foldM_app.
    destruct (foldM _ ∅ params) as [t|] eqn:Ht; simpl; [|done].
    destruct (_param_key p) as [k|] eqn:Hk; simpl; [|done].
    intros [= <-]. rewrite filter_app, filter_cons, filter_nil.
    destruct (decide (k = key)) as [->|Hne].
    + rewrite lookup_insert_eq. rewrite decide_True by done.
      by rewrite last_snoc.
    + rewrite lookup_insert_ne by done. rewrite decide_False by congruence.
      rewrite app_nil_r. by apply IH.
Qed.

Lemma param_table_keyed (params : json) (table : dict) key p :
  param_table params = Ok table → table !! key = Some p → _param_key p = Ok key.
Proof.
  intros Ht Hp. destruct params as [| | | | |l|]; try done.
  rewrite (param_table_lookup _ _ key Ht) in Hp.
  apply last_Some_elem_of in Hp. by apply list_elem_of_filter in Hp as [? _].
Qed.

Lemma extract_body_schema_rule operation schema :
  _extract_body_schema operation = Ok schema →
  schema = request_body_schema operation.
Proof.
  unfold _extract_body_schema, request_body_schema, media_schema.
  destruct operation as [| | | | | |o]; simpl; try done.
  destruct (dict_get o "requestBody" (JDict ∅)) as [| | | | | |body];
    simpl; try done.
  destruct (dict_get body "content" (JDict ∅)) as [| | | | | |content];
    simpl; try done.
  unfold dict_get.
  destruct (content !! "application/json") as [media|];
    destruct (content !! "multipart/form-data") as [media'|]; simpl.
  all: try (destruct media; simpl; try done).
  all: try (destruct media'; simpl; try done).
  all: by intros [= <-].
Qed.

Lemma diff_param_append tag (old_params new_params : dict) diffs key :
  diff_param tag old_params new_params diffs key
  = diffs ++ match old_params !! key, new_params !! key with
             | None, _ => [tag +:+ " param added: " +:+ key]
             | Some _, None => [tag +:+ " param removed: " +:+ key]
             | Some p, Some q =>
                 if decide (p = q) then []
                 else [tag +:+ " param changed: " +:+ key]
             end.
Proof.
  unfold diff_param, dumps_differ.
  destruct (old_params !! key) as [p|], (new_params !! key) as [q|]; try done.
  destruct (decide (p = q)) as [->|Hne].
  - rewrite bool_decide_eq_false_2 by naive_solver. by rewrite app_nil_r.
  - by rewrite bool_decide_eq_true_2.
Qed.

Lemma foldl_diff_param tag (old_params new_params : dict) keys acc :
  (∀ key, key ∈ keys →
          is_Some (old_params !! key) ∨ is_Some (new_params !! key)) →
  foldl (diff_param tag old_params new_params) acc keys
  = acc ++ (keys ≫= λ key,
      match old_params !! key, new_params !! key with
      | None, Some _ => [tag +:+ " param added: " +:+ key]
      | Some _, None => [tag +:+ " param removed: " +:+ key]
      | Some p, Some q =>
          if decide (p = q) then [] else [tag +:+ " param changed: " +:+ key]
      | None, None => []
      end).
Proof.
  revert acc. induction keys as [|key keys IH]; intros acc Hin.
  - simpl. by rewrite app_nil_r.
  - cbn [foldl]. rewrite IH by (intros; apply Hin; by right).
    rewrite diff_param_append, <-app_assoc. f_equal. cbn. f_equal.
    destruct (Hin key) as [[p Hp]|[q Hq]]; [by left|..].
    + rewrite Hp. by destruct (new_params !! key).
    + rewrite Hq. by destruct (old_params !! key).
Qed.

Lemma diff_operation_inv method old new diffs :
  _diff_operation method old new = Ok diffs →
  ∃ old_params new_params old_body new_body old_codes new_codes,
    operation_params old = Ok old_params
    ∧ operation_params new = Ok new_params
    ∧ _extract_body_schema old = Ok old_body
    ∧ _extract_body_schema new = Ok new_body
    ∧ operation_responses old = Ok old_codes
    ∧ operation_responses new = Ok new_codes.
Proof.
  unfold _diff_operation. intros Hd.
  destruct (operation_params old) as [op|]; simpl in Hd; [|done].
  destruct (operation_params new) as [np|]; simpl in Hd; [|done].
  destruct (_extract_body_schema old) as [ob|]; simpl in Hd; [|done].
  destruct (_extract_body_schema new) as [nb|]; simpl in Hd; [|done].
  destruct (operation_responses old) as [oc|]; simpl in Hd; [|done].
  destruct (operation_responses new) as [nc|]; simpl in Hd; [|done].
  naive_solver.
Qed.

Lemma diff_operation_parts method old new
    old_params new_params old_body new_body old_codes new_codes :
  operation_params old = Ok old_params →
  operation_params new = Ok new_params →
  _extract_body_schema old = Ok old_body →
  _extract_body_schema new = Ok new_body →
  operation_responses old = Ok old_codes →
  operation_responses new = Ok new_codes →
  _diff_operation method old new
  = Ok (param_diffs (upper method) old_params new_params
        ++ body_diffs (upper method) old_body new_body
        ++ response_diffs (upper method) old_codes new_codes).
Proof.
  intros Hop Hnp Hob Hnb Hoc Hnc. unfold _diff_operation.
  rewrite Hop, Hnp. simpl. rewrite Hob, Hnb. simpl. rewrite Hoc, Hnc. simpl.
  f_equal.
  rewrite (foldl_append (λ code, [upper method +:+ " response removed: " +:+ code])).
  rewrite (foldl_append (λ code, [upper method +:+ " response added: " +:+ code])).
  rewrite !list_bind_singleton.
  rewrite foldl_diff_param.
  2:{ intros key Hk%elem_of_sorted.
      apply elem_of_union in Hk as [Hk|Hk]; apply elem_of_dom in Hk; eauto. }
  rewrite app_nil_l. fold (param_diffs (upper method) old_params new_params).
  unfold body_diffs, dumps_differ, response_diffs.
  destruct (decide (old_body = new_body)) as [->|Hne].
  - rewrite bool_decide_eq_false_2 by naive_solver. by rewrite <-!app_assoc.
  - rewrite bool_decide_eq_true_2 by done. by rewrite <-!app_assoc.
Qed.

Lemma param_diffs_tagged tag (old_params new_params : dict) :
  Forall (λ d, ∃ rest, d = tag +:+ " " +:+ rest)
         (param_diffs tag old_params new_params).
Proof.
  unfold param_diffs. apply Forall_forall. intros d.
  rewrite list_elem_of_bind. intros (key & Hd & _).
  destruct (old_params !! key) as [p|], (new_params !! key) as [q|];
    try destruct (decide (p = q)); try by apply elem_of_nil in Hd.
  all: apply list_elem_of_singleton in Hd as ->.
  - by exists ("param changed: " +:+ key).
  - by exists ("param removed: " +:+ key).
  - by exists ("param added: " +:+ key).
Qed.

Lemma body_diffs_tagged tag old_body new_body :
  Forall (λ d, ∃ rest, d = tag +:+ " " +:+ rest) (body_diffs tag old_body new_body).
Proof.
  unfold body_diffs. destruct (decide _); repeat constructor.
  by exists "request body changed".
Qed.

Lemma response_diffs_tagged tag (old_codes new_codes : gset string) :
  Forall (λ d, ∃ rest, d = tag +:+ " " +:+ rest)
         (response_diffs tag old_codes new_codes).
Proof.
  unfold response_diffs. apply Forall_app. split; apply Forall_fmap, Forall_forall;
    intros code _; simpl.
  - by exists ("response added: " +:+ code).
  - by exists ("response removed: " +:+ code).
Qed.

(** C3.  On operation objects whose parts can be read, [_diff_operation]
    returns exactly the parameter descriptors (parameters keyed by
    [<in>:<name>], keys of both sides in sorted order: added, removed, or
    changed when the two objects differ), then at most one
    [request body changed] (iff the schemas under
    [requestBody.content], JSON media type first and multipart only
    when that one is absent, differ), then [response added] per new code
    and [response removed] per dropped code, each ascending; every
    descriptor starts with the upper-cased method and a space. *)
Theorem diff_operation_spec method old new
    old_params new_params old_body new_body old_codes new_codes :
  operation_params old = Ok old_params →
  operation_params new = Ok new_params →
  _extract_body_schema old = Ok old_body →
  _extract_body_schema new = Ok new_body →
  operation_responses old = Ok old_codes →
  operation_responses new = Ok new_codes →
  _diff_operation method old new
  = Ok (param_diffs (upper method) old_params new_params
        ++ body_diffs (upper method) old_body new_body
        ++ response_diffs (upper method) old_codes new_codes)
  ∧ Forall (λ d, ∃ rest, d = upper method +:+ " " +:+ rest)
           (param_diffs (upper method) old_params new_params
            ++ body_diffs (upper method) old_body new_body
            ++ response_diffs (upper method) old_codes new_codes)
  ∧ (∀ key p, old_params !! key = Some p → _param_key p = Ok key)
  ∧ (∀ key p, new_params !! key = Some p → _param_key p = Ok key)
  ∧ old_body = request_body_schema old
  ∧ new_body = request_body_schema new.
Proof.
  intros Hop Hnp Hob Hnb Hoc Hnc. split_and!.
  - by apply diff_operation_parts.
  - rewrite !Forall_app. split_and!;
      [apply param_diffs_tagged|apply body_diffs_tagged|apply response_diffs_tagged].
  - unfold operation_params in Hop.
    destruct (attr_get old "parameters" (JList [])) as [l|]; simpl in Hop; [|done].
    intros key p. by apply (param_table_keyed l).
  - unfold operation_params in Hnp.
    destruct (attr_get new "parameters" (JList [])) as [l|]; simpl in Hnp; [|done].
    intros key p. by apply (param_table_keyed l).
  - by apply extract_body_schema_rule.
  - by apply extract_body_schema_rule.
Qed.
End DiffProofs.

Lemma diff_operation_spec_witness :
  @_diff_operation ascii_text "get" old_tags_get new_tags_get
  = Ok ["GET param added: query:page_size"; "GET response removed: 404"].
Proof.
  destruct (@diff_operation_spec ascii_text "get" old_tags_get new_tags_get
              (list_to_map [("query:page", param "query" "page")])
              (list_to_map [("query:page", param "query" "page");
                            ("query:page_size", param "query" "page_size")])
              JNull JNull {[ "200"; "404" ]} {[ "200" ]}) as [Heq _];
    [vm_compute; reflexivity..|].
  rewrite Heq. vm_compute. reflexivity.
Defined.

(** ** The path-item and schema differs *)

Section PathProofs.
Context `{TextBuiltins}.

Lemma diff_method_append (old new : dict) diffs method :
  diff_method (JDict old) (JDict new) diffs method
  = ds ← (if is_method method then method_diffs old new method else Ok []);
    Ok (diffs ++ ds).
Proof.
  unfold diff_method, is_method, method_diffs.
  destruct (startswith method "x-"); simpl; [by rewrite app_nil_r|].
  case_bool_decide; simpl; [by rewrite app_nil_r|].
  destruct (old !! method) as [o|] eqn:Ho, (new !! method) as [n|] eqn:Hn; simpl.
  all: rewrite ?Ho, ?Hn; simpl; by rewrite ?app_nil_r.
Qed.

(** C4.  [_diff_path_item] visits the sorted union of the keys of both
    path items, leaves out [parameters] and the keys starting with [x-],
    and appends for each remaining method: [method added: <METHOD>] when
    only the new item has it, [method removed: <METHOD>] when only the
    old one has it, and the descriptors of [_diff_operation] when both
    have it (an exception of [_diff_operation] ends the call). *)
Theorem diff_path_item_spec (old new : dict) :
  _diff_path_item (JDict old) (JDict new)
  = (λ dss, concat dss)
      <$> map_results (method_diffs old new)
               (filter (λ key, is_method key) (sorted (dom old ∪ dom new))).
Proof.
  unfold _diff_path_item. simpl.
  rewrite (foldM_ext _ (λ diffs method,
             ds ← (if is_method method then method_diffs old new method
                   else Ok []); Ok (diffs ++ ds)))
    by (intros; apply diff_method_append).
  rewrite (foldM_append (λ method, if is_method method
                                   then method_diffs old new method else Ok [])).
  simpl. by apply map_results_filter.
Qed.

Lemma param_diffs_same tag (params : dict) : param_diffs tag params params = [].
Proof.
  unfold param_diffs. rewrite (list_bind_ext_in _ (λ _, [])).
  - induction (sorted _) as [|k l IH]; [done|]. by cbn.
  - intros key Hk%elem_of_sorted. rewrite union_idemp_L in Hk.
    apply elem_of_dom in Hk as [p ->]. by rewrite decide_True.
Qed.

Lemma response_diffs_same tag (codes : gset string) :
  response_diffs tag codes codes = [].
Proof.
  unfold response_diffs. by rewrite difference_diag_L, sorted_empty.
Qed.

Lemma diff_operation_same method operation diffs :
  _diff_operation method operation operation = Ok diffs → diffs = [].
Proof.
  intros Hd.
  destruct (diff_operation_inv _ _ _ _ Hd)
    as (op & np & ob & nb & oc & nc & Hop & Hnp & Hob & Hnb & Hoc & Hnc).
  rewrite (diff_operation_parts _ _ _ _ _ _ _ _ _ Hop Hnp Hob Hnb Hoc Hnc) in Hd.
  rewrite Hop in Hnp. rewrite Hob in Hnb. rewrite Hoc in Hnc.
  simplify_eq. rewrite param_diffs_same, response_diffs_same.
  unfold body_diffs. by rewrite decide_True.
Qed.

Lemma diff_path_item_same item diffs :
  _diff_path_item item item = Ok diffs → diffs = [].
Proof.
  unfold _diff_path_item.
  destruct item as [| | | | | |d]; simpl; try done.
  generalize (sorted (dom d ∪ dom d)). intros methods.
  assert (∀ acc, foldM (diff_method (JDict d) (JDict d)) acc methods = Ok diffs →
                 diffs = acc) as Hacc; [|apply Hacc].
  induction methods as [|method methods IH]; intros acc; simpl.
  - by intros [= <-].
  - rewrite diff_method_append.
    destruct (is_method method); simpl.
    + unfold method_diffs. destruct (d !! method) as [operation|]; simpl.
      * destruct (_diff_operation method operation operation) as [ds|] eqn:Hds;
          simpl; [|done].
        apply diff_operation_same in Hds as ->. rewrite app_nil_r. apply IH.
      * rewrite app_nil_r. apply IH.
    + rewrite app_nil_r. apply IH.
Qed.

Lemma diff_common_path_same (paths : dict) changed path changed' :
  diff_common_path (JDict paths) (JDict paths) changed path = Ok changed' →
  changed' = changed.
Proof.
  unfold diff_common_path. simpl.
  destruct (paths !! path) as [item|]; simpl; [|done].
  destruct (_diff_path_item item item) as [ds|] eqn:Hds; simpl; [|done].
  apply diff_path_item_same in Hds as ->. by intros [= <-].
Qed.

Lemma diff_schemas_inv old new paths_filter d :
  diff_schemas old new paths_filter = Ok d →
  ∃ old_paths new_paths : dict,
    (match paths_filter with
     | Some f => filter_paths (dict_get old "paths" (JDict ∅)) f
     | None => Ok (dict_get old "paths" (JDict ∅))
     end = Ok (JDict old_paths))
    ∧ (match paths_filter with
       | Some f => filter_paths (dict_get new "paths" (JDict ∅)) f
       | None => Ok (dict_get new "paths" (JDict ∅))
       end = Ok (JDict new_paths))
    ∧ added_paths d = sorted (dom new_paths ∖ dom old_paths)
    ∧ removed_paths d = sorted (dom old_paths ∖ dom new_paths)
    ∧ foldM (diff_common_path (JDict old_paths) (JDict new_paths)) []
            (sorted (dom old_paths ∩ dom new_paths)) = Ok (changed_paths d).
Proof.
  unfold diff_schemas. intros Hd.
  destruct (match paths_filter with Some f => filter_paths (dict_get old _ _) f
            | None => _ end) as [op|]; simpl in Hd; [|done].
  destruct (match paths_filter with Some f => filter_paths (dict_get new _ _) f
            | None => _ end) as [np|]; simpl in Hd; [|done].
  destruct op as [| | | | | |op]; simpl in Hd; try done.
  destruct np as [| | | | | |np]; simpl in Hd; try done.
  destruct (foldM _ _ _) as [changed|] eqn:Hc; simpl in Hd; [|done].
  injection Hd as <-. exists op, np. by split_and!.
Qed.

(** C5.  Without a paths filter, the paths [diff_schemas(A, B)] reports
    as added are those [diff_schemas(B, A)] reports as removed, and the
    other way round. *)
Theorem diff_symmetric (A B : dict) (d1 d2 : SchemaDiff) :
  diff_schemas A B None = Ok d1 →
  diff_schemas B A None = Ok d2 →
  added_paths d1 = removed_paths d2 ∧ removed_paths d1 = added_paths d2.
Proof.
  intros (a & b & Ha & Hb & Hadd1 & Hrem1 & _)%diff_schemas_inv
         (b' & a' & Hb' & Ha' & Hadd2 & Hrem2 & _)%diff_schemas_inv.
  rewrite Ha in Ha'. rewrite Hb in Hb'. simplify_eq.
  by rewrite Hadd1, Hrem1, Hadd2, Hrem2.
Qed.

(** C6.  A schema diffed against itself, with or without a paths
    filter, has no changes: no added path, no removed path, no changed
    path. *)
Theorem diff_reflexive (A : dict) (paths_filter : option (list string))
    (d : SchemaDiff) :
  diff_schemas A A paths_filter = Ok d →
  has_changes d = false ∧ d = no_changes.
Proof.
  intros (a & a' & Ha & Ha' & Hadd & Hrem & Hch)%diff_schemas_inv.
  rewrite Ha in Ha'. injection Ha' as <-.
  rewrite difference_diag_L, sorted_empty in Hadd, Hrem.
  assert (changed_paths d = []) as Hnone.
  { revert Hch. generalize (sorted (dom a ∩ dom a)). intros paths.
    generalize (changed_paths d). intros changed.
    induction paths as [|path paths IH]; cbn [foldM]; [by intros [= <-]|].
    destruct (diff_common_path _ _ [] path) as [changed'|] eqn:Hstep;
      simpl; [|done].
    apply diff_common_path_same in Hstep as ->. apply IH. }
  destruct d as [added removed changed]; simpl in *; subst. done.
Qed.
End PathProofs.

Lemma diff_symmetric_witness :
  ([] : list string) = [] ∧ ["/api/foo/"] = ["/api/foo/"].
Proof.
  apply (@diff_symmetric ascii_text old_tags_schema new_tags_schema
           {| added_paths := []; removed_paths := ["/api/foo/"];
              changed_paths := [("/api/tags/",
                                 ["GET param added: query:page_size";
                                  "GET response removed: 404"])] |}
           {| added_paths := ["/api/foo/"]; removed_paths := [];
              changed_paths := [("/api/tags/",
                                 ["GET param removed: query:page_size";
                                  "GET response added: 404"])] |});
    vm_compute; reflexivity.
Defined.

Lemma diff_reflexive_witness :
  has_changes no_changes = false ∧ no_changes = no_changes.
Proof.
  apply (@diff_reflexive ascii_text new_tags_schema (Some ["/api/tags/"])).
  vm_compute. reflexivity.
Defined.

(** ** Parameter keys *)

Section ParamKeyProofs.
Context `{TextBuiltins}.

Lemma param_key_dict (p : dict) :
  _param_key (JDict p)
  = Ok (format_value (dict_get p "in" (JStr "?")) +:+ ":"
        +:+ format_value (dict_get p "name" (JStr "?"))).
Proof. done. Qed.

(** A later parameter with the same key overrides what the table holds
    under that key. *)
Lemma param_table_overridden (q : dict) key (between after : list json)
    (table : dict) (p : json) :
  _param_key (JDict q) = Ok key →
  foldM (λ table p, key ← _param_key p; Ok (<[key := p]> table))
        (<[key := p]> table) (between ++ JDict q :: after)
  = foldM (λ table p, key ← _param_key p; Ok (<[key := p]> table))
          table (between ++ JDict q :: after).
Proof.
  intros Hq. revert table. induction between as [|x between IH]; intros table.
  - cbn [app foldM]. rewrite Hq. simpl. by rewrite insert_insert_eq.
  - cbn [app foldM]. destruct (_param_key x) as [k|]; simpl; [|done].
    destruct (decide (k = key)) as [->|Hne].
    + by rewrite insert_insert_eq.
    + rewrite insert_insert_ne by done. apply IH.
Qed.

Lemma param_table_list (params : list json) :
  param_table (JList params)
  = foldM (λ table p, key ← _param_key p; Ok (<[key := p]> table)) ∅ params.
Proof. done. Qed.

Lemma param_table_collapse (p q : dict) (before between after : list json) :
  _param_key (JDict p) = _param_key (JDict q) →
  param_table (JList (before ++ JDict p :: between ++ JDict q :: after))
  = param_table (JList (before ++ between ++ JDict q :: after)).
Proof.
  intros Hpq. rewrite !param_table_list, !foldM_app.
  destruct (foldM _ ∅ before) as [table|]; [|done].
  cbn [mbind result_bind foldM]. rewrite (param_key_dict p).
  cbn [mbind result_bind].
  apply param_table_overridden. by rewrite <-Hpq, param_key_dict.
Qed.

Lemma operation_params_insert (operation : dict) params :
  operation_params (JDict (<["parameters" := params]> operation))
  = param_table params.
Proof.
  unfold operation_params. simpl. unfold dict_get. by rewrite lookup_insert_eq.
Qed.

Lemma attr_get_insert_ne (operation : dict) k v k' default :
  k ≠ k' →
  attr_get (JDict (<[k := v]> operation)) k' default
  = attr_get (JDict operation) k' default.
Proof. intros Hne. unfold attr_get, dict_get. by rewrite lookup_insert_ne. Qed.

Lemma extract_body_schema_insert (operation : dict) params :
  _extract_body_schema (JDict (<["parameters" := params]> operation))
  = _extract_body_schema (JDict operation).
Proof. unfold _extract_body_schema. by rewrite attr_get_insert_ne. Qed.

Lemma operation_responses_insert (operation : dict) params :
  operation_responses (JDict (<["parameters" := params]> operation))
  = operation_responses (JDict operation).
Proof. unfold operation_responses. by rewrite attr_get_insert_ne. Qed.

(** C10.  A parameter is keyed by [<in>:<name>], a missing field
    counting as [?].  When a parameter list holds two objects with the
    same key, the table the differ builds keeps the later one only
    (under every key, the last object of the list with that key), so
    the earlier one can be dropped from either side without changing
    what [_diff_operation] returns. *)
Theorem param_key_collapse (p q : dict) (before between after : list json)
    (method : string) (operation other : dict) :
  _param_key (JDict p) = _param_key (JDict q) →
  let doubled := before ++ JDict p :: between ++ JDict q :: after in
  let single := before ++ between ++ JDict q :: after in
  _param_key (JDict p)
  = Ok (format_value (dict_get p "in" (JStr "?")) +:+ ":"
        +:+ format_value (dict_get p "name" (JStr "?")))
  ∧ (p !! "in" = None → p !! "name" = None → _param_key (JDict p) = Ok "?:?")
  ∧ (∀ loc name, p !! "in" = Some (JStr loc) → p !! "name" = Some (JStr name) →
                 _param_key (JDict p) = Ok (loc +:+ ":" +:+ name))
  ∧ param_table (JList doubled) = param_table (JList single)
  ∧ (∀ table key, param_table (JList doubled) = Ok table →
       table !! key = last (filter (λ x, _param_key x = Ok key) doubled))
  ∧ _diff_operation method
      (JDict (<["parameters" := JList doubled]> operation)) (JDict other)
    = _diff_operation method
        (JDict (<["parameters" := JList single]> operation)) (JDict other)
  ∧ _diff_operation method (JDict other)
      (JDict (<["parameters" := JList doubled]> operation))
    = _diff_operation method (JDict other)
        (JDict (<["parameters" := JList single]> operation)).
Proof.
  intros Hpq doubled single.
  pose proof (param_table_collapse p q before between after Hpq) as Htable.
  split_and!.
  - apply param_key_dict.
  - intros Hin Hname. rewrite param_key_dict. unfold dict_get.
    by rewrite Hin, Hname, !format_value_str.
  - intros loc name Hin Hname. rewrite param_key_dict. unfold dict_get.
    by rewrite Hin, Hname, !format_value_str.
  - done.
  - intros table key. apply param_table_lookup.
  - unfold _diff_operation. rewrite !operation_params_insert.
    fold doubled single in Htable. rewrite Htable.
    by rewrite !extract_body_schema_insert, !operation_responses_insert.
  - unfold _diff_operation. rewrite !operation_params_insert.
    fold doubled single in Htable. rewrite Htable.
    by rewrite !extract_body_schema_insert, !operation_responses_insert.
Qed.
End ParamKeyProofs.

Lemma param_key_collapse_witness :
  @param_table ascii_text
    (JList [obj [("in", JStr "query"); ("name", JStr "page"); ("required", JBool true)];
            param "query" "page"])
  = @param_table ascii_text (JList [param "query" "page"]).
Proof.
  apply (@param_key_collapse ascii_text
           (list_to_map [("in", JStr "query"); ("name", JStr "page");
                         ("required", JBool true)])
           (list_to_map [("in", JStr "query"); ("name", JStr "page")])
           [] [] [] "get" ∅ ∅).
  vm_compute. reflexivity.
Defined.

(** * Further properties of the extraction *)

(** [_collect_refs] adds to the set exactly the strings written under a
    [$ref] key somewhere inside the value: a [$ref] whose value is not a
    string adds nothing, and the other keys of a mapping that has a
    [$ref] are still searched. *)
Theorem collect_refs_has_ref (obj : json) (refs : gset string) (ref : string) :
  ref ∈ _collect_refs obj refs ↔ ref ∈ refs ∨ has_ref obj ref.
Proof.
  rewrite collect_refs_union, elem_of_union.
  assert (ref ∈ _collect_refs obj ∅ ↔ has_ref obj ref) as ->; [|done].
  induction obj as [| | | | |l IH|d IH] using json_ind';
    try (split; [set_solver|inversion 1]).
  - rewrite elem_of_collect_list. split.
    + intros (v & Hv & Hr). apply (has_ref_item l v); [done|].
      rewrite Forall_forall in IH. by apply IH.
    + inversion 1 as [| |? v ? Hv Hr]; subst. exists v. split; [done|].
      rewrite Forall_forall in IH. by apply IH.
  - rewrite elem_of_collect_dict. split.
    + intros [Hr|(k & v & Hv & Hr)]; [by constructor|].
      apply (has_ref_value d k v); [done|]. by apply (IH k v).
    + inversion 1 as [|? k v ? Hv Hr|]; subst; [by left|].
      right. exists k, v. split; [done|]. by apply (IH k v).
Qed.

Lemma split_app_any sep a b :
  split sep (a +:+ String sep b) = split sep a ++ split sep b.
Proof.
  induction a as [|c a IH]; simpl.
  - by rewrite Ascii.eqb_refl.
  - destruct (Ascii.eqb c sep); [by rewrite IH|].
    rewrite IH. pose proof (split_nonempty sep a).
    by destruct (split sep a).
Qed.

Lemma walk_parts_app v parts1 parts2 :
  parts2 ≠ [] →
  walk_parts v (parts1 ++ parts2) = walk_parts (walk_parts v parts1) parts2.
Proof.
  intros Hne. revert v. induction parts1 as [|p parts1 IH]; intros v; simpl; [done|].
  destruct v as [| | | | | |d]; try by destruct parts2.
  destruct (d !! p); [apply IH|by destruct parts2].
Qed.

(** Resolving a pointer continues from the target of its prefix: when
    [#/a] resolves to a mapping, [#/a/b] resolves to what [#/b] resolves to
    in that mapping; when [#/a] resolves to anything else, or to nothing,
    [#/a/b] is absent. *)
Theorem resolve_ref_continues (a b : string) (root : dict) :
  match _resolve_ref ("#/" +:+ a) root with
  | JDict target =>
      _resolve_ref ("#/" +:+ a +:+ "/" +:+ b) root = _resolve_ref ("#/" +:+ b) target
  | _ => _resolve_ref ("#/" +:+ a +:+ "/" +:+ b) root = JNull
  end.
Proof.
  change ("#/" +:+ a +:+ "/" +:+ b) with ("#/" +:+ (a +:+ String "/" b)).
  rewrite !resolve_ref_walk, split_app_any.
  rewrite walk_parts_app by apply split_nonempty.
  pose proof (split_nonempty "/" b) as Hb.
  destruct (walk_parts (JDict root) (split "/" a)) as [| | | | | |target];
    try (by destruct (split "/" b)).
  by rewrite resolve_ref_walk.
Qed.

(** The loop ends, whatever the seeds: it returns within
    [size (seeds ∪ all_refs schema) + 2] loop tests, every budget under
    which it returns gives the same set, and that set holds exactly the
    references reachable from the seeds. *)
Theorem closure_loop_result (schema : dict) (seeds : gset string) :
  ∃ refs,
    (∀ fuel, S (S (size (seeds ∪ all_refs schema))) ≤ fuel →
       closure_loop fuel schema seeds (-1) = Some refs)
    ∧ (∀ fuel refs', closure_loop fuel schema seeds (-1) = Some refs' → refs' = refs)
    ∧ ∀ r, r ∈ refs ↔ reachable schema seeds r.
Proof.
  destruct (closure_loop_stops schema (seeds ∪ all_refs schema)
              (size (seeds ∪ all_refs schema)) seeds) as [refs Hrefs];
    [set_solver|set_solver|lia|].
  rewrite <-closure_loop_first in Hrefs. exists refs. split_and!.
  - intros fuel Hfuel. by eapply closure_loop_more_fuel.
  - intros fuel refs' Hrefs'. apply set_eq. intros r.
    rewrite (closure_loop_reachable _ _ _ _ Hrefs r).
    by rewrite (closure_loop_reachable _ _ _ _ Hrefs' r).
  - by eapply closure_loop_reachable.
Qed.

Lemma extract_component_entry schema paths result c n v :
  extract_paths schema paths = Ok result →
  component_entry (dict_get result "components" (JDict ∅)) c n = Some v ↔
  reachable schema (path_refs result) (component_ref c n)
  ∧ has_char "/" c = false ∧ has_char "/" n = false
  ∧ component_entry (dict_get schema "components" (JDict ∅)) c n = Some v.
Proof.
  intros (kept & needed & pruned & Hk & Hn & Hp & ->)%extract_paths_inv.
  unfold path_refs.
  rewrite subset_document_components, subset_document_paths, component_entry_pruned.
  rewrite (prune_components_entry _ _ _ c n v Hp).
  by rewrite (needed_closure_reachable _ _ _ Hn).
Qed.

Lemma extract_kept_lookup schema paths result p :
  extract_paths schema paths = Ok result →
  dict_of (dict_get result "paths" (JDict ∅)) !! p
  = if decide (p ∈ paths) then dict_of (dict_get schema "paths" (JDict ∅)) !! p
    else None.
Proof.
  intros (kept & needed & pruned & Hk & Hn & Hp & ->)%extract_paths_inv.
  rewrite subset_document_paths. simpl.
  rewrite (kept_paths_lookup _ _ _ _ Hk p), lookup_empty.
  destruct (decide (p ∈ paths)); [|done]. by destruct (_ !! p).
Qed.

Lemma extract_result_fields schema paths result :
  extract_paths schema paths = Ok result →
  result !! "openapi" = Some (dict_get schema "openapi" (JStr "3.0.0"))
  ∧ result !! "info" = Some (dict_get schema "info" (JDict ∅)).
Proof.
  intros (kept & needed & pruned & Hk & Hn & Hp & ->)%extract_paths_inv.
  unfold subset_document. destruct (decide (pruned = ∅)); split;
    rewrite ?lookup_insert_ne by done; by rewrite lookup_insert_eq.
Qed.

(** The only exception [extract_paths] raises is [TypeError]. *)
Theorem extract_paths_only_type_error schema paths e :
  extract_paths schema paths = Raise e → e = TypeError.
Proof. apply extract_paths_raises. Qed.

Lemma extract_paths_only_type_error_witness : TypeError = TypeError.
Proof.
  apply (extract_paths_only_type_error {[ "paths" := JInt 5 ]} ["/api/tags/"]).
  vm_compute. reflexivity.
Defined.

(** [extract_paths] returns on every document whose [paths] section is a
    mapping (or missing) and whose [components] section is a mapping of
    mappings (or missing), whatever the patterns. *)
Theorem extract_paths_returns schema paths (d : dict) (m : gmap string dict) :
  dict_get schema "paths" (JDict ∅) = JDict d →
  dict_get schema "components" (JDict ∅) = JDict (JDict <$> m) →
  ∃ result, extract_paths schema paths = Ok result.
Proof. apply extract_paths_typed. Qed.

Lemma extract_paths_returns_witness :
  ∃ result, extract_paths two_hop_schema ["/api/tags/"; "/api/missing/"] = Ok result.
Proof.
  apply (extract_paths_returns two_hop_schema ["/api/tags/"; "/api/missing/"]
           (list_to_map [("/api/tags/", tags_item "#/components/schemas/Tag");
                         ("/api/other/", obj [])])
           {[ "schemas" :=
                list_to_map
                  [("Tag", obj [("items", ref_to "#/components/schemas/TagList")]);
                   ("TagList", obj [("type", JStr "array")]);
                   ("Correspondent", obj [("type", JStr "object")])] ]});
    vm_compute; reflexivity.
Defined.

(** The kept paths are exactly the patterns that are keys of the source's
    [paths], each with the path item of the source unchanged. *)
Theorem extract_keeps_paths schema paths result :
  extract_paths schema paths = Ok result →
  (∀ p, dict_of (dict_get result "paths" (JDict ∅)) !! p
        = if decide (p ∈ paths)
          then dict_of (dict_get schema "paths" (JDict ∅)) !! p else None)
  ∧ path_keys result = path_keys schema ∩ list_to_set paths.
Proof.
  intros Hx. split; [intros p; by apply extract_kept_lookup|].
  apply set_eq. intros p. unfold path_keys.
  rewrite elem_of_intersection, !elem_of_dom, elem_of_list_to_set.
  rewrite (extract_kept_lookup _ _ _ p Hx).
  destruct (decide (p ∈ paths)); [naive_solver|].
  split; [by intros [??]|naive_solver].
Qed.

Lemma extract_keeps_paths_witness :
  (∀ p, dict_of (dict_get two_hop_subset "paths" (JDict ∅)) !! p
        = if decide (p ∈ ["/api/tags/"; "/api/missing/"])
          then dict_of (dict_get two_hop_schema "paths" (JDict ∅)) !! p else None)
  ∧ path_keys two_hop_subset
    = path_keys two_hop_schema ∩ list_to_set ["/api/tags/"; "/api/missing/"].
Proof.
  apply (extract_keeps_paths two_hop_schema). vm_compute. reflexivity.
Defined.

(** The result has the keys [openapi], [info] and [paths], plus
    [components] when something was kept, and no other key: [openapi] and
    [info] are the source's, or ["3.0.0"] and an empty mapping when the
    source has none; a [components] section is never empty and has no
    empty category. *)
Theorem extract_result_shape schema paths result :
  extract_paths schema paths = Ok result →
  result !! "openapi" = Some (dict_get schema "openapi" (JStr "3.0.0"))
  ∧ result !! "info" = Some (dict_get schema "info" (JDict ∅))
  ∧ (∃ kept, result !! "paths" = Some (JDict kept))
  ∧ dom result ⊆ {[ "openapi"; "info"; "paths"; "components" ]}
  ∧ ∀ components, result !! "components" = Some components →
      ∃ kept : gmap string dict,
        components = JDict (JDict <$> kept) ∧ kept ≠ ∅
        ∧ ∀ category entries, kept !! category = Some entries → entries ≠ ∅.
Proof.
  intros (kept & needed & pruned & Hk & Hn & Hp & ->)%extract_paths_inv.
  unfold subset_document. destruct (decide (pruned = ∅)) as [->|Hne].
  - split_and!.
    + rewrite !lookup_insert_ne by done. by rewrite lookup_insert_eq.
    + rewrite lookup_insert_ne by done. by rewrite lookup_insert_eq.
    + exists kept. by rewrite lookup_insert_eq.
    + rewrite !dom_insert_L, dom_empty_L. set_solver.
    + intros components. rewrite !lookup_insert_ne by done.
      by rewrite lookup_empty.
  - split_and!.
    + rewrite !lookup_insert_ne by done. by rewrite lookup_insert_eq.
    + rewrite !lookup_insert_ne by done. by rewrite lookup_insert_eq.
    + exists kept. rewrite lookup_insert_ne by done. by rewrite lookup_insert_eq.
    + rewrite !dom_insert_L, dom_empty_L. set_solver.
    + intros components. rewrite lookup_insert_eq. intros [= <-].
      exists pruned. split_and!; [done..|].
      by eapply prune_components_nonempty.
Qed.

Lemma extract_result_shape_witness :
  two_hop_subset !! "openapi" = Some (dict_get two_hop_schema "openapi" (JStr "3.0.0"))
  ∧ two_hop_subset !! "info" = Some (dict_get two_hop_schema "info" (JDict ∅))
  ∧ (∃ kept, two_hop_subset !! "paths" = Some (JDict kept))
  ∧ dom two_hop_subset ⊆ {[ "openapi"; "info"; "paths"; "components" ]}
  ∧ ∀ components, two_hop_subset !! "components" = Some components →
      ∃ kept : gmap string dict,
        components = JDict (JDict <$> kept) ∧ kept ≠ ∅
        ∧ ∀ category entries, kept !! category = Some entries → entries ≠ ∅.
Proof.
  apply (extract_result_shape two_hop_schema ["/api/tags/"]).
  vm_compute. reflexivity.
Defined.

(** A component is in the result exactly when its pointer
    [#/components/<category>/<name>] is reachable from the kept paths and
    the source has it; the result holds the source's definition
    unchanged.  Components nothing refers to are left out. *)
Theorem extract_keeps_components schema paths result c n v :
  extract_paths schema paths = Ok result →
  component_entry (dict_get result "components" (JDict ∅)) c n = Some v ↔
  reachable schema (path_refs result) (component_ref c n)
  ∧ has_char "/" c = false ∧ has_char "/" n = false
  ∧ component_entry (dict_get schema "components" (JDict ∅)) c n = Some v.
Proof. apply extract_component_entry. Qed.

Lemma extract_keeps_components_witness :
  component_entry (dict_get two_hop_subset "components" (JDict ∅))
                  "schemas" "Correspondent"
  = Some (obj [("type", JStr "object")]) ↔
  reachable two_hop_schema (path_refs two_hop_subset)
            (component_ref "schemas" "Correspondent")
  ∧ has_char "/" "schemas" = false ∧ has_char "/" "Correspondent" = false
  ∧ component_entry (dict_get two_hop_schema "components" (JDict ∅))
                    "schemas" "Correspondent"
    = Some (obj [("type", JStr "object")]).
Proof.
  apply (extract_keeps_components two_hop_schema ["/api/tags/"]).
  vm_compute. reflexivity.
Defined.

Lemma extract_path_refs_mono schema (paths1 paths2 : list string) result1 result2 :
  paths1 ⊆ paths2 →
  extract_paths schema paths1 = Ok result1 →
  extract_paths schema paths2 = Ok result2 →
  path_refs result1 ⊆ path_refs result2.
Proof.
  intros Hsub (k1 & ? & ? & Hk1 & _ & _ & ->)%extract_paths_inv
              (k2 & ? & ? & Hk2 & _ & _ & ->)%extract_paths_inv.
  unfold path_refs. rewrite !subset_document_paths.
  assert (∀ p item, k1 !! p = Some item → k2 !! p = Some item) as Hin.
  { intros p item Hp. destruct (kept_paths_sub _ _ _ _ _ Hk1 Hp) as [Hp1 Hitem].
    rewrite (kept_paths_lookup _ _ _ _ Hk2 p).
    rewrite decide_True by by apply Hsub. by rewrite Hitem. }
  intros r [Hr|(p & item & Hp & Hr)]%elem_of_collect_dict;
    apply elem_of_collect_dict; [left|right; exists p, item]; eauto.
Qed.

(** More patterns keep more components: with [P1 ⊆ P2], every component
    of [extract_paths(S, P1)] is a component of [extract_paths(S, P2)]. *)
Theorem extract_components_monotone schema (paths1 paths2 : list string)
    result1 result2 c n v :
  paths1 ⊆ paths2 →
  extract_paths schema paths1 = Ok result1 →
  extract_paths schema paths2 = Ok result2 →
  component_entry (dict_get result1 "components" (JDict ∅)) c n = Some v →
  component_entry (dict_get result2 "components" (JDict ∅)) c n = Some v.
Proof.
  intros Hsub Hx1 Hx2.
  rewrite (extract_component_entry _ _ _ c n v Hx1).
  rewrite (extract_component_entry _ _ _ c n v Hx2).
  intros (Hreach & Hc & Hn & Hv). split_and!; try done.
  eapply reachable_mono; [|exact Hreach].
  intros r Hr. constructor. by eapply extract_path_refs_mono.
Qed.

Lemma extract_components_monotone_witness :
  component_entry
    (dict_get (<["paths" := obj [("/api/tags/", tags_item "#/components/schemas/Tag");
                                 ("/api/other/", obj [])]]> two_hop_subset)
              "components" (JDict ∅)) "schemas" "Tag"
  = Some (obj [("items", ref_to "#/components/schemas/TagList")]).
Proof.
  apply (extract_components_monotone two_hop_schema ["/api/tags/"]
           ["/api/tags/"; "/api/other/"] two_hop_subset).
  - set_solver.
  - vm_compute. reflexivity.
  - vm_compute. reflexivity.
  - vm_compute. reflexivity.
Defined.

Lemma keep_path_raise_any all_paths kept kept' pattern e :
  keep_path all_paths kept pattern = Raise e →
  keep_path all_paths kept' pattern = Raise e.
Proof.
  unfold keep_path. destruct (py_in pattern all_paths) as [[]|]; simpl; try done.
  by destruct (py_getitem all_paths pattern).
Qed.

Lemma kept_paths_raise all_paths paths kept e :
  foldM (keep_path all_paths) kept paths = Raise e →
  ∃ p, p ∈ paths ∧ keep_path all_paths ∅ p = Raise TypeError.
Proof.
  revert kept. induction paths as [|x paths IH]; intros kept; simpl; [done|].
  destruct (keep_path all_paths kept x) as [k1|e1] eqn:Hx; simpl.
  - intros (p & Hp & Hr)%IH. exists p. split; [by right|done].
  - intros _. exists x. split; [by left|].
    pose proof (keep_path_raises _ _ _ _ Hx) as ->.
    by eapply keep_path_raise_any.
Qed.

Lemma kept_paths_raise_elem all_paths paths kept p :
  p ∈ paths → keep_path all_paths ∅ p = Raise TypeError →
  foldM (keep_path all_paths) kept paths = Raise TypeError.
Proof.
  intros Hp Hr. revert kept. induction paths as [|x paths IH]; intros kept.
  - by apply elem_of_nil in Hp.
  - simpl. destruct (keep_path all_paths kept x) as [k1|e1] eqn:Hx; simpl.
    + apply elem_of_cons in Hp as [->|Hp]; [|by apply IH].
      apply (keep_path_raise_any _ _ kept) in Hr. congruence.
    + by rewrite (keep_path_raises _ _ _ _ Hx).
Qed.

Lemma kept_paths_same_elements all_paths (paths paths' : list string) :
  (∀ p, p ∈ paths ↔ p ∈ paths') →
  foldM (keep_path all_paths) ∅ paths = foldM (keep_path all_paths) ∅ paths'.
Proof.
  intros Hsame.
  destruct (foldM _ ∅ paths) as [k|e] eqn:Hk, (foldM _ ∅ paths') as [k'|e'] eqn:Hk'.
  - f_equal. apply map_eq. intros p.
    rewrite (kept_paths_lookup _ _ _ _ Hk p), (kept_paths_lookup _ _ _ _ Hk' p).
    destruct (decide (p ∈ paths)), (decide (p ∈ paths')); naive_solver.
  - apply kept_paths_raise in Hk' as (p & Hp & Hr).
    apply Hsame in Hp. by rewrite (kept_paths_raise_elem _ _ _ p Hp Hr) in Hk.
  - apply kept_paths_raise in Hk as (p & Hp & Hr).
    apply Hsame in Hp. by rewrite (kept_paths_raise_elem _ _ _ p Hp Hr) in Hk'.
  - pose proof (foldM_raises _ (λ e, e = TypeError) _ _ _
                  (λ b x e, keep_path_raises all_paths b x e) Hk) as ->.
    pose proof (foldM_raises _ (λ e, e = TypeError) _ _ _
                  (λ b x e, keep_path_raises all_paths b x e) Hk') as ->.
    done.
Qed.

(** Only the set of patterns matters: their order and repetitions change
    neither the result nor whether the call raises. *)
Theorem extract_patterns_as_set schema (paths paths' : list string) :
  (∀ p, p ∈ paths ↔ p ∈ paths') →
  extract_paths schema paths = extract_paths schema paths'.
Proof.
  intros Hsame. unfold extract_paths.
  by rewrite (kept_paths_same_elements _ paths paths').
Qed.

Lemma extract_patterns_as_set_witness :
  extract_paths two_hop_schema ["/api/tags/"; "/api/other/"; "/api/tags/"]
  = extract_paths two_hop_schema ["/api/other/"; "/api/tags/"].
Proof.
  apply extract_patterns_as_set. intros p.
  rewrite !elem_of_cons, !elem_of_nil. naive_solver.
Defined.

Lemma reachable_no_seeds schema r : ¬ reachable schema ∅ r.
Proof. induction 1 as [r Hr|]; [set_solver|done]. Qed.

(** With no patterns the result is the bare document: [openapi], [info]
    and an empty [paths], for every source document, even one whose
    sections have the wrong types. *)
Theorem extract_no_patterns schema :
  extract_paths schema []
  = Ok {[ "paths" := JDict ∅;
          "info" := dict_get schema "info" (JDict ∅);
          "openapi" := dict_get schema "openapi" (JStr "3.0.0") ]}.
Proof.
  unfold extract_paths. cbn [foldM mbind result_bind].
  destruct (needed_closure_total schema [] ∅ eq_refl) as [needed Hn].
  rewrite Hn.
  assert (needed = ∅) as ->.
  { apply set_eq. intros r. rewrite (needed_closure_reachable _ _ _ Hn r).
    split; [|set_solver]. intros Hr. exfalso.
    eapply (reachable_no_seeds schema r).
    eapply reachable_mono; [|exact Hr].
    intros x Hx. by apply elem_of_collect_dict in Hx as [?|(? & ? & ? & _)]. }
  unfold _prune_components. rewrite elements_empty. simpl.
  by rewrite decide_True.
Qed.

(** An extracted document can always be extracted again, with any
    patterns: the call returns, keeps no path and no component the
    document did not have, and leaves [openapi] and [info] as they
    are. *)
Theorem extract_again schema paths result (paths' : list string) :
  extract_paths schema paths = Ok result →
  ∃ result',
    extract_paths result paths' = Ok result'
    ∧ path_keys result' ⊆ path_keys result
    ∧ result' !! "openapi" = result !! "openapi"
    ∧ result' !! "info" = result !! "info"
    ∧ ∀ c n v,
        component_entry (dict_get result' "components" (JDict ∅)) c n = Some v →
        component_entry (dict_get result "components" (JDict ∅)) c n = Some v.
Proof.
  intros Hx.
  pose proof Hx as (kept & needed & pruned & Hk & Hn & Hp & Hres)%extract_paths_inv.
  destruct (extract_paths_typed result paths' kept pruned) as [result' Hx'].
  { subst result. apply subset_document_paths. }
  { subst result. apply subset_document_components. }
  exists result'. split; [done|].
  destruct (extract_result_fields _ _ _ Hx) as (Ho & Hi).
  destruct (extract_result_fields _ _ _ Hx') as (Ho' & Hi').
  split_and!.
  - unfold path_keys. intros p [item Hp']%elem_of_dom. apply elem_of_dom.
    rewrite (extract_kept_lookup _ _ _ p Hx') in Hp'.
    destruct (decide (p ∈ paths')); [eauto|done].
  - rewrite Ho', Ho. unfold dict_get at 1. by rewrite Ho.
  - rewrite Hi', Hi. unfold dict_get at 1. by rewrite Hi.
  - intros c n v. rewrite (extract_component_entry _ _ _ c n v Hx'). naive_solver.
Qed.

Lemma extract_again_witness :
  ∃ result',
    extract_paths two_hop_subset ["/api/other/"] = Ok result'
    ∧ path_keys result' ⊆ path_keys two_hop_subset
    ∧ result' !! "openapi" = two_hop_subset !! "openapi"
    ∧ result' !! "info" = two_hop_subset !! "info"
    ∧ ∀ c n v,
        component_entry (dict_get result' "components" (JDict ∅)) c n = Some v →
        component_entry (dict_get two_hop_subset "components" (JDict ∅)) c n
        = Some v.
Proof.
  apply (extract_again two_hop_schema ["/api/tags/"]). vm_compute. reflexivity.
Defined.

(** * Further properties of the differ *)

Lemma StronglySorted_sublist {A} (R : relation A) (l1 l2 : list A) :
  sublist l1 l2 → StronglySorted R l2 → StronglySorted R l1.
Proof.
  induction 1 as [|x l1 l2 Hsub IH|x l1 l2 Hsub IH]; intros Hs; [done|..].
  - apply StronglySorted_inv in Hs as [Hs Hx]. constructor; [by apply IH|].
    rewrite Forall_forall in *. intros y Hy. apply Hx.
    by eapply elem_of_sublist.
  - apply StronglySorted_inv in Hs as [Hs _]. by apply IH.
Qed.

Lemma Sorted_sorted_sublist (X : gset string) (l : list string) :
  sublist l (sorted X) → Sorted String.le l ∧ NoDup l.
Proof.
  intros Hsub. split.
  - apply StronglySorted_Sorted, (StronglySorted_sublist _ _ _ Hsub).
    apply (StronglySorted_merge_sort String.le).
  - eapply sublist_NoDup; [apply NoDup_sorted|done].
Qed.

Section SchemaDiffProofs.
Context `{TextBuiltins}.

Lemma compared_paths_lookup (schema : dict) paths_filter (compared : dict) p :
  match paths_filter with
  | Some f => filter_paths (dict_get schema "paths" (JDict ∅)) f
  | None => Ok (dict_get schema "paths" (JDict ∅))
  end = Ok (JDict compared) →
  compared !! p
  = dict_of (dict_get schema "paths" (JDict ∅)) !! p
    ≫= λ item, if decide (in_filter paths_filter p) then Some item else None.
Proof.
  destruct paths_filter as [f|]; simpl.
  - destruct (dict_get schema "paths" (JDict ∅)) as [| | | | | |d]; try done.
    simpl. intros [= <-]. rewrite map_lookup_filter.
    destruct (d !! p) as [item|]; simpl; [|done].
    destruct (decide (p ∈ f)).
    + by rewrite option_guard_True.
    + by rewrite option_guard_False.
  - intros [= ->]. simpl. by destruct (compared !! p).
Qed.

Lemma compared_paths_dom (schema : dict) paths_filter (compared : dict) p :
  match paths_filter with
  | Some f => filter_paths (dict_get schema "paths" (JDict ∅)) f
  | None => Ok (dict_get schema "paths" (JDict ∅))
  end = Ok (JDict compared) →
  p ∈ dom compared ↔ p ∈ path_keys schema ∧ in_filter paths_filter p.
Proof.
  intros Hc. unfold path_keys. rewrite !elem_of_dom.
  rewrite (compared_paths_lookup _ _ _ p Hc).
  destruct (dict_of _ !! p) as [item|]; simpl.
  - destruct (decide (in_filter paths_filter p)); split;
      try (intros [??]); naive_solver.
  - split; [by intros [??]|]. by intros [[??] _].
Qed.

(** Added and removed paths: a path is reported as added exactly when the
    new document has it, the old one does not, and the filter (if any)
    lists it; as removed the other way round.  Both lists are in
    ascending order without repetition, and no path is in both. *)
Theorem diff_schemas_added_removed (old new : dict) paths_filter d :
  diff_schemas old new paths_filter = Ok d →
  (∀ p, p ∈ added_paths d ↔
        p ∈ path_keys new ∧ (p ∉ path_keys old) ∧ in_filter paths_filter p)
  ∧ (∀ p, p ∈ removed_paths d ↔
          p ∈ path_keys old ∧ (p ∉ path_keys new) ∧ in_filter paths_filter p)
  ∧ Sorted String.le (added_paths d) ∧ NoDup (added_paths d)
  ∧ Sorted String.le (removed_paths d) ∧ NoDup (removed_paths d)
  ∧ (∀ p, p ∈ added_paths d → p ∉ removed_paths d).
Proof.
  intros (op & np & Hop & Hnp & Hadd & Hrem & _)%diff_schemas_inv.
  assert (∀ p, p ∈ dom op ↔ p ∈ path_keys old ∧ in_filter paths_filter p) as Ho
    by (intros p; by apply compared_paths_dom).
  assert (∀ p, p ∈ dom np ↔ p ∈ path_keys new ∧ in_filter paths_filter p) as Hn
    by (intros p; by apply compared_paths_dom).
  rewrite Hadd, Hrem. split_and!.
  - intros p. rewrite elem_of_sorted, elem_of_difference, Ho, Hn. naive_solver.
  - intros p. rewrite elem_of_sorted, elem_of_difference, Ho, Hn. naive_solver.
  - apply Sorted_sorted.
  - apply NoDup_sorted.
  - apply Sorted_sorted.
  - apply NoDup_sorted.
  - intros p. rewrite !elem_of_sorted. set_solver.
Qed.

Lemma changed_fold_entries (old_paths new_paths : dict) keys acc changed :
  foldM (diff_common_path (JDict old_paths) (JDict new_paths)) acc keys = Ok changed →
  ∃ found,
    changed = acc ++ found
    ∧ sublist found.*1 keys
    ∧ ∀ p ds, (p, ds) ∈ found ↔
        p ∈ keys ∧ ds ≠ []
        ∧ ∃ old_item new_item,
            old_paths !! p = Some old_item ∧ new_paths !! p = Some new_item
            ∧ _diff_path_item old_item new_item = Ok ds.
Proof.
  revert acc. induction keys as [|key keys IH]; intros acc; cbn [foldM].
  - intros [= <-]. exists []. rewrite app_nil_r. split_and!; [done..|].
    intros p ds. split; [by intros ?%elem_of_nil|]. by intros [?%elem_of_nil _].
  - destruct (diff_common_path _ _ acc key) as [acc'|] eqn:Hstep; simpl; [|done].
    intros (found & -> & Hsub & Hfound)%IH.
    unfold diff_common_path in Hstep. simpl in Hstep.
    destruct (old_paths !! key) as [oi|] eqn:Hoi; simpl in Hstep; [|done].
    destruct (new_paths !! key) as [ni|] eqn:Hni; simpl in Hstep; [|done].
    destruct (_diff_path_item oi ni) as [ds0|] eqn:Hds; simpl in Hstep; [|done].
    injection Hstep as <-. destruct ds0 as [|d0 ds0].
    + exists found. split_and!; [done|by constructor|].
      intros p ds. rewrite Hfound, elem_of_cons. split; [naive_solver|].
      intros ([->|Hp] & Hne & oi' & ni' & Ho' & Hn' & Hd'); [|naive_solver].
      congruence.
    + exists ((key, d0 :: ds0) :: found). rewrite <-app_assoc. split_and!.
      * done.
      * simpl. by constructor.
      * intros p ds. rewrite !elem_of_cons, Hfound. split.
        -- intros [[= -> ->]|?]; [|naive_solver].
           split_and!; [by left|done|eauto 10].
        -- intros ([->|Hp] & Hne & oi' & ni' & Ho' & Hn' & Hd'); [|naive_solver].
           left. congruence.
Qed.

(** Changed paths: a path is listed with its descriptors exactly when
    both documents have it (and the filter lists it) and the path items
    differ, the descriptors being those of [_diff_path_item], never an
    empty list; the keys come in ascending order, each once. *)
Theorem diff_schemas_changed (old new : dict) paths_filter d :
  diff_schemas old new paths_filter = Ok d →
  Sorted String.le (changed_paths d).*1 ∧ NoDup (changed_paths d).*1
  ∧ ∀ p ds, (p, ds) ∈ changed_paths d ↔
      ds ≠ [] ∧ in_filter paths_filter p
      ∧ ∃ old_item new_item,
          dict_of (dict_get old "paths" (JDict ∅)) !! p = Some old_item
          ∧ dict_of (dict_get new "paths" (JDict ∅)) !! p = Some new_item
          ∧ _diff_path_item old_item new_item = Ok ds.
Proof.
  intros (op & np & Hop & Hnp & _ & _ & Hch)%diff_schemas_inv.
  apply changed_fold_entries in Hch as (found & Hfound & Hsub & Hentries).
  rewrite app_nil_l in Hfound. rewrite Hfound.
  destruct (Sorted_sorted_sublist _ _ Hsub) as [Hsorted Hnodup].
  split_and!; [done..|]. intros p ds. rewrite Hentries, elem_of_sorted.
  rewrite !(compared_paths_lookup _ _ _ p Hop), !(compared_paths_lookup _ _ _ p Hnp).
  rewrite elem_of_intersection, !elem_of_dom.
  rewrite !(compared_paths_lookup _ _ _ p Hop), !(compared_paths_lookup _ _ _ p Hnp).
  destruct (decide (in_filter paths_filter p)) as [Hf|Hf].
  - destruct (dict_of (dict_get old _ _) !! p) as [oi|],
             (dict_of (dict_get new _ _) !! p) as [ni|]; simpl;
      split; try naive_solver.
    all: intros ([_ [??]] & _); done.
  - split; [|naive_solver].
    intros (_ & _ & oi & ni & Ho & _).
    by destruct (dict_of (dict_get old _ _) !! p).
Qed.

(** A diff restricted to a filter is the unrestricted diff of the two
    documents with their [paths] cut down to the filter. *)
Theorem diff_schemas_filter (old new old_paths new_paths : dict)
    (allowed : list string) :
  dict_get old "paths" (JDict ∅) = JDict old_paths →
  dict_get new "paths" (JDict ∅) = JDict new_paths →
  diff_schemas old new (Some allowed)
  = diff_schemas
      (<["paths" := JDict (filter (λ kv, kv.1 ∈ allowed) old_paths)]> old)
      (<["paths" := JDict (filter (λ kv, kv.1 ∈ allowed) new_paths)]> new)
      None.
Proof.
  intros Ho Hn. unfold diff_schemas. rewrite Ho, Hn.
  unfold dict_get. by rewrite !lookup_insert_eq.
Qed.
End SchemaDiffProofs.

Lemma diff_schemas_added_removed_witness :
  (∀ p, p ∈ added_paths tags_diff ↔
        p ∈ path_keys new_tags_schema ∧ (p ∉ path_keys old_tags_schema) ∧ in_filter None p)
  ∧ (∀ p, p ∈ removed_paths tags_diff ↔
          p ∈ path_keys old_tags_schema ∧ (p ∉ path_keys new_tags_schema) ∧ in_filter None p)
  ∧ Sorted String.le (added_paths tags_diff) ∧ NoDup (added_paths tags_diff)
  ∧ Sorted String.le (removed_paths tags_diff) ∧ NoDup (removed_paths tags_diff)
  ∧ (∀ p, p ∈ added_paths tags_diff → p ∉ removed_paths tags_diff).
Proof.
  apply (@diff_schemas_added_removed ascii_text old_tags_schema new_tags_schema).
  vm_compute. reflexivity.
Defined.

Lemma diff_schemas_changed_witness :
  Sorted String.le (changed_paths tags_diff).*1 ∧ NoDup (changed_paths tags_diff).*1
  ∧ ∀ p ds, (p, ds) ∈ changed_paths tags_diff ↔
      ds ≠ [] ∧ in_filter None p
      ∧ ∃ old_item new_item,
          dict_of (dict_get old_tags_schema "paths" (JDict ∅)) !! p = Some old_item
          ∧ dict_of (dict_get new_tags_schema "paths" (JDict ∅)) !! p = Some new_item
          ∧ @_diff_path_item ascii_text old_item new_item = Ok ds.
Proof.
  apply (@diff_schemas_changed ascii_text old_tags_schema new_tags_schema).
  vm_compute. reflexivity.
Defined.

Lemma diff_schemas_filter_witness :
  @diff_schemas ascii_text old_tags_schema new_tags_schema (Some ["/api/tags/"])
  = @diff_schemas ascii_text
      (<["paths" := JDict (filter (λ kv, kv.1 ∈ ["/api/tags/"])
                             (dict_of (dict_get old_tags_schema "paths" (JDict ∅))))]>
         old_tags_schema)
      (<["paths" := JDict (filter (λ kv, kv.1 ∈ ["/api/tags/"])
                             (dict_of (dict_get new_tags_schema "paths" (JDict ∅))))]>
         new_tags_schema)
      None.
Proof. apply diff_schemas_filter; vm_compute; reflexivity. Defined.

Section OperationScope.
Context `{TextBuiltins}.

Lemma operation_params_insert_ne (operation : dict) key v :
  key ≠ "parameters" →
  operation_params (JDict (<[key := v]> operation))
  = operation_params (JDict operation).
Proof. intros Hne. unfold operation_params. by rewrite attr_get_insert_ne. Qed.

Lemma extract_body_schema_insert_ne (operation : dict) key v :
  key ≠ "requestBody" →
  _extract_body_schema (JDict (<[key := v]> operation))
  = _extract_body_schema (JDict operation).
Proof. intros Hne. unfold _extract_body_schema. by rewrite attr_get_insert_ne. Qed.

Lemma operation_responses_insert_ne (operation : dict) key v :
  key ≠ "responses" →
  operation_responses (JDict (<[key := v]> operation))
  = operation_responses (JDict operation).
Proof. intros Hne. unfold operation_responses. by rewrite attr_get_insert_ne. Qed.

(** The operation differ looks at [parameters], [requestBody] and
    [responses] only: setting any other key of either operation
    ([summary], [description], [tags], [security], ...) changes
    nothing in what it returns. *)
Theorem diff_operation_other_keys method (operation : dict) (other : json) key v :
  key ≠ "parameters" → key ≠ "requestBody" → key ≠ "responses" →
  _diff_operation method (JDict (<[key := v]> operation)) other
  = _diff_operation method (JDict operation) other
  ∧ _diff_operation method other (JDict (<[key := v]> operation))
    = _diff_operation method other (JDict operation).
Proof.
  intros Hp Hb Hr. unfold _diff_operation.
  by rewrite operation_params_insert_ne, extract_body_schema_insert_ne,
    operation_responses_insert_ne.
Qed.

(** Of the responses only the status codes count: two [responses]
    mappings with the same codes are interchangeable, whatever the
    response objects hold. *)
Theorem diff_operation_response_codes method (operation : dict) (other : json)
    (responses responses' : dict) :
  dom responses = dom responses' →
  _diff_operation method (JDict (<["responses" := JDict responses]> operation)) other
  = _diff_operation method (JDict (<["responses" := JDict responses']> operation)) other
  ∧ _diff_operation method other (JDict (<["responses" := JDict responses]> operation))
    = _diff_operation method other
        (JDict (<["responses" := JDict responses']> operation)).
Proof.
  intros Hdom. unfold _diff_operation.
  rewrite !operation_params_insert_ne, !extract_body_schema_insert_ne by done.
  assert (∀ r : dict, operation_responses (JDict (<["responses" := JDict r]> operation))
                      = Ok (dom r)) as Hresp.
  { intros r. unfold operation_responses. simpl. unfold dict_get.
    by rewrite lookup_insert_eq. }
  by rewrite !Hresp, Hdom.
Qed.
End OperationScope.

Lemma diff_operation_other_keys_witness :
  @_diff_operation ascii_text "get"
    (JDict (<["summary" := JStr "List tags"]> (dict_of old_tags_get))) new_tags_get
  = @_diff_operation ascii_text "get" (JDict (dict_of old_tags_get)) new_tags_get
  ∧ @_diff_operation ascii_text "get" new_tags_get
      (JDict (<["summary" := JStr "List tags"]> (dict_of old_tags_get)))
    = @_diff_operation ascii_text "get" new_tags_get (JDict (dict_of old_tags_get)).
Proof. by apply (@diff_operation_other_keys ascii_text). Defined.

Lemma diff_operation_response_codes_witness :
  @_diff_operation ascii_text "get"
    (JDict (<["responses" := JDict {[ "200" := JStr "changed" ]}]> ∅)) new_tags_get
  = @_diff_operation ascii_text "get"
      (JDict (<["responses" := JDict {[ "200" := JDict ∅ ]}]> ∅)) new_tags_get
  ∧ @_diff_operation ascii_text "get" new_tags_get
      (JDict (<["responses" := JDict {[ "200" := JStr "changed" ]}]> ∅))
    = @_diff_operation ascii_text "get" new_tags_get
        (JDict (<["responses" := JDict {[ "200" := JDict ∅ ]}]> ∅)).
Proof.
  apply (@diff_operation_response_codes ascii_text). by rewrite !dom_singleton_L.
Defined.

Lemma map_results_ext_in {A B} (f g : A → result B) (l : list A) :
  (∀ x, x ∈ l → f x = g x) → map_results f l = map_results g l.
Proof.
  induction l as [|x l IH]; intros Hfg; [done|].
  cbn [map_results]. rewrite (Hfg x) by left.
  rewrite IH; [done|]. intros y Hy. apply Hfg. by right.
Qed.

Lemma sorted_lists_equal (l1 l2 : list string) :
  Sorted String.le l1 → Sorted String.le l2 → NoDup l1 → NoDup l2 →
  (∀ x, x ∈ l1 ↔ x ∈ l2) → l1 = l2.
Proof.
  intros Hs1 Hs2 Hn1 Hn2 Hel.
  apply (Sorted_unique String.le); [done..|]. by apply NoDup_Permutation.
Qed.

Lemma filter_sorted_equal (P : string → Prop) `{∀ x, Decision (P x)}
    (X Y : gset string) :
  (∀ x, P x → x ∈ X ↔ x ∈ Y) →
  filter P (sorted X) = filter P (sorted Y).
Proof.
  intros HXY.
  destruct (Sorted_sorted_sublist X (filter P (sorted X)) (sublist_filter _ _)).
  destruct (Sorted_sorted_sublist Y (filter P (sorted Y)) (sublist_filter _ _)).
  apply sorted_lists_equal; try done.
  intros x. rewrite !list_elem_of_filter, !elem_of_sorted. naive_solver.
Qed.

Section PathItemScope.
Context `{TextBuiltins}.

Lemma diff_path_item_methods (old new : dict) :
  _diff_path_item (JDict old) (JDict new)
  = (λ dss, concat dss)
      <$> map_results (method_diffs old new)
            (filter (λ key, is_method key) (sorted (dom old ∪ dom new))).
Proof.
  unfold _diff_path_item. simpl.
  rewrite (foldM_ext _ (λ diffs method,
             ds ← (if is_method method then method_diffs old new method
                   else Ok []); Ok (diffs ++ ds)))
    by (intros; apply diff_method_append).
  rewrite (foldM_append (λ method, if is_method method
                                   then method_diffs old new method else Ok [])).
  simpl. by apply map_results_filter.
Qed.

(** The path-item differ skips the keys that are not methods: setting the
    shared [parameters] of a path item, or any [x-] extension key, on
    either side changes nothing in what it returns. *)
Theorem diff_path_item_skips_key (item other : dict) key v :
  is_method key = false →
  _diff_path_item (JDict (<[key := v]> item)) (JDict other)
  = _diff_path_item (JDict item) (JDict other)
  ∧ _diff_path_item (JDict other) (JDict (<[key := v]> item))
    = _diff_path_item (JDict other) (JDict item).
Proof.
  intros Hkey.
  assert (∀ m, is_method m → m ≠ key) as Hne.
  { intros m Hm ->. by rewrite Hkey in Hm. }
  rewrite !diff_path_item_methods. split.
  - rewrite (filter_sorted_equal _ (dom (<[key:=v]> item) ∪ dom other)
               (dom item ∪ dom other)).
    2:{ intros x Hx%Hne. rewrite dom_insert_L. set_solver. }
    f_equal. apply map_results_ext_in.
    intros m [Hm _]%list_elem_of_filter. apply Hne in Hm.
    unfold method_diffs. by rewrite lookup_insert_ne.
  - rewrite (filter_sorted_equal _ (dom other ∪ dom (<[key:=v]> item))
               (dom other ∪ dom item)).
    2:{ intros x Hx%Hne. rewrite dom_insert_L. set_solver. }
    f_equal. apply map_results_ext_in.
    intros m [Hm _]%list_elem_of_filter. apply Hne in Hm.
    unfold method_diffs. by rewrite lookup_insert_ne.
Qed.
End PathItemScope.

Lemma diff_path_item_skips_key_witness :
  @_diff_path_item ascii_text
    (JDict (<["parameters" := JList [param "path" "id"]]> {[ "get" := old_tags_get ]}))
    (JDict {[ "get" := new_tags_get ]})
  = @_diff_path_item ascii_text (JDict {[ "get" := old_tags_get ]})
      (JDict {[ "get" := new_tags_get ]})
  ∧ @_diff_path_item ascii_text (JDict {[ "get" := new_tags_get ]})
      (JDict (<["parameters" := JList [param "path" "id"]]> {[ "get" := old_tags_get ]}))
    = @_diff_path_item ascii_text (JDict {[ "get" := new_tags_get ]})
        (JDict {[ "get" := old_tags_get ]}).
Proof. by apply (@diff_path_item_skips_key ascii_text). Defined.

Section ParameterOrder.
Context `{TextBuiltins}.

Lemma param_key_non_dict p : is_dict p = false → _param_key p = Raise AttributeError.
Proof. by destruct p. Qed.

Lemma param_key_is_dict p : is_dict p = true → ∃ key, _param_key p = Ok key.
Proof. destruct p; try done. intros _. rewrite param_key_dict. eauto. Qed.

Lemma param_fold_returns (params : list json) (table : dict) :
  forallb is_dict params = true →
  ∃ table', foldM (λ table p, key ← _param_key p; Ok (<[key := p]> table))
                  table params = Ok table'.
Proof.
  revert table. induction params as [|p params IH]; intros table; simpl; [eauto|].
  intros [Hp Hps]%andb_true_iff.
  destruct (param_key_is_dict p Hp) as [key ->]. simpl. by apply IH.
Qed.

Lemma param_fold_raises (params : list json) (table : dict) :
  forallb is_dict params = false →
  foldM (λ table p, key ← _param_key p; Ok (<[key := p]> table)) table params
  = Raise AttributeError.
Proof.
  revert table. induction params as [|p params IH]; intros table; simpl; [done|].
  destruct (is_dict p) eqn:Hp; simpl.
  - intros Hps. destruct (param_key_is_dict p Hp) as [key ->]. simpl. by apply IH.
  - intros _. by rewrite (param_key_non_dict p Hp).
Qed.

Lemma forallb_Permutation {A} (f : A → bool) (l1 l2 : list A) :
  l1 ≡ₚ l2 → forallb f l1 = forallb f l2.
Proof.
  induction 1 as [|x l1 l2 _ IH|x y l|l1 l2 l3 _ IH1 _ IH2]; simpl.
  - done.
  - by rewrite IH.
  - by destruct (f x), (f y).
  - congruence.
Qed.

Lemma filter_key_short (params : list json) key :
  NoDup (_param_key <$> params) →
  length (filter (λ p, _param_key p = Ok key) params) ≤ 1.
Proof.
  induction params as [|p params IH]; [simpl; lia|].
  rewrite fmap_cons, NoDup_cons, filter_cons. intros [Hp Hnd].
  destruct (decide (_param_key p = Ok key)) as [Hk|Hk]; [|by apply IH].
  assert (filter (λ p, _param_key p = Ok key) params = []) as ->; [|simpl; lia].
  clear IH Hnd. induction params as [|q params IH]; [done|].
  rewrite filter_cons. rewrite fmap_cons, not_elem_of_cons in Hp.
  destruct Hp as [Hne Hp]. destruct (decide (_param_key q = Ok key)) as [Hqk|_].
  - congruence.
  - by apply IH.
Qed.

Lemma short_Permutation_eq {A} (l1 l2 : list A) :
  length l1 ≤ 1 → l1 ≡ₚ l2 → l1 = l2.
Proof.
  intros Hlen Hperm. pose proof (Permutation_length Hperm) as Hl.
  destruct l1 as [|x [|]], l2 as [|y [|]]; simpl in *; try lia; [done|].
  by apply Permutation_singleton_r in Hperm.
Qed.

Lemma param_table_Permutation (params params' : list json) :
  params ≡ₚ params' → NoDup (_param_key <$> params) →
  param_table (JList params) = param_table (JList params').
Proof.
  intros Hperm Hnd. rewrite !param_table_list.
  destruct (forallb is_dict params) eqn:Hall.
  - destruct (param_fold_returns params ∅ Hall) as [t Ht].
    rewrite (forallb_Permutation _ _ _ Hperm) in Hall.
    destruct (param_fold_returns params' ∅ Hall) as [t' Ht'].
    rewrite Ht, Ht'. f_equal. apply map_eq. intros key.
    rewrite <-param_table_list in Ht, Ht'.
    rewrite (param_table_lookup _ _ key Ht), (param_table_lookup _ _ key Ht').
    f_equal. apply short_Permutation_eq; [by apply filter_key_short|].
    by rewrite Hperm.
  - rewrite (param_fold_raises params ∅ Hall).
    rewrite (forallb_Permutation _ _ _ Hperm) in Hall.
    by rewrite (param_fold_raises params' ∅ Hall).
Qed.

(** Parameters are identified by their key, not by their position: when
    the keys of a parameter list are all different, reordering the list
    changes nothing in what the operation differ returns. *)
Theorem diff_operation_param_order method (operation : dict) (other : json)
    (params params' : list json) :
  params ≡ₚ params' → NoDup (_param_key <$> params) →
  _diff_operation method (JDict (<["parameters" := JList params]> operation)) other
  = _diff_operation method (JDict (<["parameters" := JList params']> operation)) other
  ∧ _diff_operation method other (JDict (<["parameters" := JList params]> operation))
    = _diff_operation method other
        (JDict (<["parameters" := JList params']> operation)).
Proof.
  intros Hperm Hnd. unfold _diff_operation.
  rewrite !operation_params_insert, !extract_body_schema_insert,
    !operation_responses_insert.
  by rewrite (param_table_Permutation params params').
Qed.
End ParameterOrder.

Lemma diff_operation_param_order_witness :
  @_diff_operation ascii_text "get"
    (JDict (<["parameters" := JList [param "query" "page"; param "query" "page_size"]]> ∅))
    old_tags_get
  = @_diff_operation ascii_text "get"
      (JDict (<["parameters" := JList [param "query" "page_size"; param "query" "page"]]> ∅))
      old_tags_get
  ∧ @_diff_operation ascii_text "get" old_tags_get
      (JDict (<["parameters" := JList [param "query" "page"; param "query" "page_size"]]> ∅))
    = @_diff_operation ascii_text "get" old_tags_get
        (JDict (<["parameters" := JList [param "query" "page_size"; param "query" "page"]]> ∅)).
Proof.
  apply (@diff_operation_param_order ascii_text).
  - apply perm_swap.
  - vm_compute. repeat constructor; set_solver.
Defined.

(** ** Documents the differ reads without an exception *)

Lemma foldM_returns {A B} (f : B → A → result B) (b : B) (l : list A) :
  (∀ b x, x ∈ l → ∃ b', f b x = Ok b') → ∃ b', foldM f b l = Ok b'.
Proof.
  revert b. induction l as [|x l IH]; intros b Hf; simpl; [eauto|].
  destruct (Hf b x) as [b' ->]; [left|]. simpl.
  apply IH. intros b'' y Hy. apply Hf. by right.
Qed.

Section Readable.
Context `{TextBuiltins}.

Lemma operation_readable_parts operation :
  operation_readable operation = true →
  (∃ table, operation_params operation = Ok table)
  ∧ (∃ schema, _extract_body_schema operation = Ok schema)
  ∧ (∃ codes, operation_responses operation = Ok codes).
Proof.
  destruct operation as [| | | | | |o]; try done. simpl.
  intros [[Hparams Hbody]%andb_true_iff Hresp]%andb_true_iff. split_and!.
  - unfold operation_params. simpl.
    destruct (dict_get o "parameters" (JList [])) as [| | | | |params|]; try done.
    unfold param_table. simpl. by apply param_fold_returns.
  - unfold _extract_body_schema. simpl.
    destruct (dict_get o "requestBody" (JDict ∅)) as [| | | | | |body]; try done.
    simpl.
    destruct (dict_get body "content" (JDict ∅)) as [| | | | | |content]; try done.
    simpl.
    destruct (dict_get content "application/json" _) as [| | | | | |media]; try done.
    simpl. eauto.
  - unfold operation_responses. simpl.
    destruct (dict_get o "responses" (JDict ∅)) as [| | | | | |responses]; try done.
    simpl. eauto.
Qed.

Lemma diff_operation_returns method old new :
  operation_readable old = true → operation_readable new = true →
  ∃ diffs, _diff_operation method old new = Ok diffs.
Proof.
  intros ([op Hop] & [ob Hob] & [or Hor])%operation_readable_parts
         ([np Hnp] & [nb Hnb] & [nr Hnr])%operation_readable_parts.
  unfold _diff_operation. rewrite Hop, Hnp. simpl. rewrite Hob, Hnb. simpl.
  rewrite Hor, Hnr. simpl. eauto.
Qed.

Lemma diff_path_item_returns old new :
  path_item_readable old → path_item_readable new →
  ∃ diffs, _diff_path_item old new = Ok diffs.
Proof.
  intros (o & -> & Ho) (n & -> & Hn). unfold _diff_path_item. simpl.
  apply foldM_returns. intros diffs method _. rewrite diff_method_append.
  destruct (is_method method) eqn:Hm; simpl; [|eauto].
  unfold method_diffs.
  destruct (o !! method) as [old_op|] eqn:Hold,
           (n !! method) as [new_op|] eqn:Hnew; simpl; eauto.
  destruct (diff_operation_returns method old_op new_op) as [ds ->]; simpl; eauto.
Qed.

Lemma filter_paths_dict (paths : dict) paths_filter :
  match paths_filter with
  | Some f => filter_paths (JDict paths) f
  | None => Ok (JDict paths)
  end = Ok (JDict (filter (λ kv, in_filter paths_filter kv.1) paths)).
Proof.
  destruct paths_filter as [f|]; simpl; [done|].
  do 2 f_equal. symmetry. apply map_filter_id. by intros.
Qed.

(** [diff_schemas] returns a diff, whatever the paths filter, as soon as the
    [paths] of both documents map to path items whose operations have a
    list of mappings as parameters and mappings as request body, content,
    media type and responses: no exception arises on such documents. *)
Theorem diff_schemas_returns (old new : dict) paths_filter :
  schema_readable old → schema_readable new →
  ∃ d, diff_schemas old new paths_filter = Ok d.
Proof.
  intros (op & Hop & Hold) (np & Hnp & Hnew). unfold diff_schemas.
  rewrite Hop, Hnp, !filter_paths_dict. simpl.
  match goal with |- context [foldM ?f ?b ?l] =>
    destruct (foldM_returns f b l) as [changed ->]; [|simpl; eauto] end.
  intros changed path [Ho Hn]%elem_of_sorted%elem_of_intersection.
  apply elem_of_dom in Ho as [old_item Ho], Hn as [new_item Hn].
  unfold diff_common_path. simpl. rewrite Ho, Hn. simpl.
  apply map_lookup_filter_Some in Ho as [Ho _], Hn as [Hn _].
  destruct (diff_path_item_returns old_item new_item) as [ds ->]; simpl; eauto.
Qed.
End Readable.

Lemma diff_schemas_returns_witness :
  ∃ d, @diff_schemas ascii_text old_tags_schema new_tags_schema
         (Some ["/api/tags/"]) = Ok d.
Proof.
  apply (@diff_schemas_returns ascii_text).
  - exists (list_to_map [("/api/tags/", obj [("get", old_tags_get)]);
                         ("/api/foo/", obj [])]).
    split; [vm_compute; reflexivity|]. intros path item Hitem.
    apply elem_of_list_to_map_2 in Hitem.
    apply elem_of_cons in Hitem as [[= -> ->]|Hitem];
      [|apply elem_of_cons in Hitem as [[= -> ->]|Hitem];
        [|by apply elem_of_nil in Hitem]].
    + exists (list_to_map [("get", old_tags_get)]). split; [reflexivity|].
      intros method operation Hop _. apply elem_of_list_to_map_2 in Hop.
      apply elem_of_cons in Hop as [[= -> ->]|Hop];
        [vm_compute; reflexivity|by apply elem_of_nil in Hop].
    + exists ∅. split; [reflexivity|]. intros method operation Hop _.
      by rewrite lookup_empty in Hop.
  - exists (list_to_map [("/api/tags/", obj [("get", new_tags_get)])]).
    split; [vm_compute; reflexivity|]. intros path item Hitem.
    apply elem_of_list_to_map_2 in Hitem.
    apply elem_of_cons in Hitem as [[= -> ->]|Hitem];
      [|by apply elem_of_nil in Hitem].
    exists (list_to_map [("get", new_tags_get)]). split; [reflexivity|].
    intros method operation Hop _. apply elem_of_list_to_map_2 in Hop.
    apply elem_of_cons in Hop as [[= -> ->]|Hop];
      [vm_compute; reflexivity|by apply elem_of_nil in Hop].
Defined.

(** ** Extraction followed by comparison *)

Section ExtractThenDiff.
Context `{TextBuiltins}.

(** Comparing a document with a subset extracted from it reports no added
    and no changed path, whatever the filter; the removed paths are the
    paths of the document that the filter lists and that were not asked
    for in the extraction. *)
Theorem extract_then_diff schema (paths : list string) result paths_filter d :
  extract_paths schema paths = Ok result →
  diff_schemas schema result paths_filter = Ok d →
  added_paths d = [] ∧ changed_paths d = []
  ∧ ∀ p, p ∈ removed_paths d ↔
         p ∈ path_keys schema ∧ (p ∉ paths) ∧ in_filter paths_filter p.
Proof.
  intros Hx (op & np & Hop & Hnp & Hadd & Hrem & Hch)%diff_schemas_inv.
  assert (∀ p item, np !! p = Some item → op !! p = Some item ∧ p ∈ paths) as Hsub.
  { intros p item. rewrite (compared_paths_lookup _ _ _ p Hop),
      (compared_paths_lookup _ _ _ p Hnp), (extract_kept_lookup _ _ _ p Hx).
    destruct (decide (p ∈ paths)); [done|]. by simpl. }
  split_and!.
  - rewrite Hadd. assert (dom np ∖ dom op = ∅) as ->; [|apply sorted_empty].
    apply set_eq. intros p. rewrite elem_of_difference, !elem_of_dom.
    split; [|set_solver]. intros [[item Hitem] Hnot].
    destruct Hnot. exists item. by apply Hsub.
  - apply changed_fold_entries in Hch as (found & -> & _ & Hfound). simpl.
    destruct found as [|[p ds] found]; [done|]. exfalso.
    destruct (Hfound p ds) as [Hp _].
    destruct Hp as (_ & Hne & oi & ni & Ho & Hn & Hds); [left|].
    apply Hsub in Hn as [Hn _]. rewrite Ho in Hn. injection Hn as ->.
    by apply diff_path_item_same in Hds.
  - intros p. rewrite Hrem, elem_of_sorted, elem_of_difference.
    rewrite (compared_paths_dom _ _ _ p Hop), (compared_paths_dom _ _ _ p Hnp).
    unfold path_keys at 2. rewrite elem_of_dom, (extract_kept_lookup _ _ _ p Hx).
    unfold path_keys. rewrite elem_of_dom.
    destruct (decide (p ∈ paths)); [naive_solver|].
    split; [naive_solver|]. intros (? & _ & ?). split; [done|]. by intros [[??] _].
Qed.
End ExtractThenDiff.

Lemma extract_then_diff_witness :
  added_paths {| added_paths := []; removed_paths := ["/api/other/"];
                 changed_paths := [] |} = []
  ∧ changed_paths {| added_paths := []; removed_paths := ["/api/other/"];
                     changed_paths := [] |} = []
  ∧ ∀ p, p ∈ removed_paths {| added_paths := []; removed_paths := ["/api/other/"];
                              changed_paths := [] |} ↔
         p ∈ path_keys two_hop_schema ∧ (p ∉ ["/api/tags/"]) ∧ in_filter None p.
Proof.
  apply (@extract_then_diff ascii_text two_hop_schema ["/api/tags/"] two_hop_subset);
    vm_compute; reflexivity.
Defined.

(** ** The summary of a diff *)

Lemma elem_of_sorted_list (l : list string) x : x ∈ sorted_list l ↔ x ∈ l.
Proof. unfold sorted_list. by rewrite merge_sort_Permutation. Qed.

Lemma join_head sep c s rest : ∃ t, join sep (String c s :: rest) = String c t.
Proof. destruct rest; simpl; eauto. Qed.

Lemma elem_of_changed_lines (changed : list (string * list string)) line :
  NoDup changed.*1 →
  line ∈ (sorted_list changed.*1 ≫= λ path,
            (λ detail, "  ~ " +:+ path +:+ ": " +:+ detail)
              <$> default [] ((list_to_map changed : gmap string (list string)) !! path)) ↔
  ∃ path ds detail,
    (path, ds) ∈ changed ∧ detail ∈ ds
    ∧ line = "  ~ " +:+ path +:+ ": " +:+ detail.
Proof.
  intros Hnd. rewrite list_elem_of_bind. split.
  - intros (path & Hline & _). apply list_elem_of_fmap in Hline as (detail & -> & Hd).
    destruct (list_to_map changed !! path) as [ds|] eqn:Hds; simpl in Hd.
    + apply elem_of_list_to_map_2 in Hds. eauto 10.
    + by apply elem_of_nil in Hd.
  - intros (path & ds & detail & Hin & Hd & ->). exists path. split.
    + apply list_elem_of_fmap. exists detail. split; [done|].
      by rewrite (elem_of_list_to_map_1 changed path ds).
    + apply elem_of_sorted_list, list_elem_of_fmap. by exists (path, ds).
Qed.

Lemma elem_of_summary_lines (d : SchemaDiff) line :
  NoDup (changed_paths d).*1 →
  line ∈ summary_lines d ↔
    (has_changes d = false ∧ line = "No changes.")
    ∨ (added_paths d ≠ []
       ∧ (line = "Added paths (" +:+ pretty (length (added_paths d)) +:+ "):"
          ∨ ∃ p, p ∈ added_paths d ∧ line = "  + " +:+ p))
    ∨ (removed_paths d ≠ []
       ∧ (line = "Removed paths (" +:+ pretty (length (removed_paths d)) +:+ "):"
          ∨ ∃ p, p ∈ removed_paths d ∧ line = "  - " +:+ p))
    ∨ (changed_paths d ≠ []
       ∧ (line = "Changed paths (" +:+ pretty (length (changed_paths d)) +:+ "):"
          ∨ ∃ path ds detail,
              (path, ds) ∈ changed_paths d ∧ detail ∈ ds
              ∧ line = "  ~ " +:+ path +:+ ": " +:+ detail)).
Proof.
  intros Hnd. pose proof (elem_of_changed_lines (changed_paths d) line Hnd) as Hch.
  assert (∀ mark l, line ∈ (λ p, mark +:+ p) <$> sorted_list l
                    ↔ ∃ p, p ∈ l ∧ line = mark +:+ p) as Hmark.
  { intros mark l. rewrite list_elem_of_fmap.
    split; intros (p & ? & ?); exists p; by rewrite ?elem_of_sorted_list in *. }
  unfold summary_lines, has_changes.
  destruct (bool_decide_reflect (added_paths d = [])) as [Ha|Ha],
           (bool_decide_reflect (removed_paths d = [])) as [Hr|Hr],
           (bool_decide_reflect (changed_paths d = [])) as [Hc|Hc];
    cbn [negb orb app];
    repeat (rewrite elem_of_app || rewrite elem_of_cons);
    rewrite ?elem_of_nil, ?Hmark, ?Hch; intuition congruence.
Qed.

(** The summary is the text [No changes.] exactly when the diff has no
    changes, so the printed summary and [has_changes] (the exit status of
    the [diff] command) never disagree. *)
Theorem summary_no_changes (d : SchemaDiff) :
  summary d = "No changes." ↔ has_changes d = false.
Proof.
  unfold summary, summary_lines, has_changes.
  destruct (bool_decide_reflect (added_paths d = [])) as [Ha|Ha],
           (bool_decide_reflect (removed_paths d = [])) as [Hr|Hr],
           (bool_decide_reflect (changed_paths d = [])) as [Hc|Hc];
    cbn [negb orb app]; [done|..].
  all: split; [|done].
  all: match goal with |- join _ (?h :: ?rest) = _ → _ =>
         let c := eval hnf in h in
         change h with c;
         match c with String ?a ?s =>
           destruct (join_head newline a s rest) as [t ->] end
       end; discriminate.
Qed.

(** The lines of the summary of a diff whose changed paths are listed once
    each: a line [  + p] for exactly the added paths, a line [  - p] for
    exactly the removed paths, and a line [  ~ path: detail] for exactly
    the descriptors stored under the changed paths. *)
Theorem summary_lines_spec (d : SchemaDiff) :
  NoDup (changed_paths d).*1 →
  (∀ p, "  + " +:+ p ∈ summary_lines d ↔ p ∈ added_paths d)
  ∧ (∀ p, "  - " +:+ p ∈ summary_lines d ↔ p ∈ removed_paths d)
  ∧ (∀ text, "  ~ " +:+ text ∈ summary_lines d ↔
       ∃ path ds detail,
         (path, ds) ∈ changed_paths d ∧ detail ∈ ds
         ∧ text = path +:+ ": " +:+ detail).
Proof.
  intros Hnd. split_and!.
  - intros p. rewrite (elem_of_summary_lines d _ Hnd). split.
    + intros [[_ [=]]|[[_ [[=]|(q & Hq & [= Heq])]]
        |[[_ [[=]|(q & Hq & [=])]]|[_ [[=]|(q & ds & dt & _ & _ & [=])]]]]].
      change (p = q) in Heq. by subst.
    + intros Hp. right; left. split; [by intros Hnil; rewrite Hnil in Hp;
        apply elem_of_nil in Hp|]. right. by exists p.
  - intros p. rewrite (elem_of_summary_lines d _ Hnd). split.
    + intros [[_ [=]]|[[_ [[=]|(q & Hq & [=])]]
        |[[_ [[=]|(q & Hq & [= Heq])]]|[_ [[=]|(q & ds & dt & _ & _ & [=])]]]]].
      change (p = q) in Heq. by subst.
    + intros Hp. right; right; left. split; [by intros Hnil; rewrite Hnil in Hp;
        apply elem_of_nil in Hp|]. right. by exists p.
  - intros text. rewrite (elem_of_summary_lines d _ Hnd). split.
    + intros [[_ [=]]|[[_ [[=]|(q & Hq & [=])]]
        |[[_ [[=]|(q & Hq & [=])]]
         |[_ [[=]|(q & ds & dt & Hin & Hdt & [= Heq])]]]]].
      change (text = q +:+ ": " +:+ dt) in Heq. eauto 10.
    + intros (path & ds & detail & Hin & Hd & ->). right; right; right.
      split; [by intros Hnil; rewrite Hnil in Hin; apply elem_of_nil in Hin|].
      right. by exists path, ds, detail.
Qed.

Lemma summary_lines_spec_witness :
  (∀ p, "  + " +:+ p ∈ summary_lines tags_diff ↔ p ∈ added_paths tags_diff)
  ∧ (∀ p, "  - " +:+ p ∈ summary_lines tags_diff ↔ p ∈ removed_paths tags_diff)
  ∧ (∀ text, "  ~ " +:+ text ∈ summary_lines tags_diff ↔
       ∃ path ds detail,
         (path, ds) ∈ changed_paths tags_diff ∧ detail ∈ ds
         ∧ text = path +:+ ": " +:+ detail).
Proof.
  apply (summary_lines_spec tags_diff). simpl. repeat constructor; set_solver.
Defined.

(** ** Swapping the two documents of a comparison *)

Lemma bind_nil_iff {A B} (f : A → list B) (l : list A) :
  l ≫= f = [] ↔ ∀ x, x ∈ l → f x = [].
Proof.
  induction l as [|x l IH]; [by split; [intros _ ? ?%elem_of_nil|]|].
  rewrite bind_cons. split.
  - intros [Hx Hl]%app_nil y [->|Hy]%elem_of_cons; [done|]. by apply IH.
  - intros Hall. rewrite (Hall x) by left. simpl. apply IH.
    intros y Hy. apply Hall. by right.
Qed.

Lemma fmap_nil_iff {A B} (f : A → B) (l : list A) : f <$> l = [] ↔ l = [].
Proof. by destruct l. Qed.

Lemma map_results_concat_nil {A B} (f g : A → result (list B)) (l : list A) dss dss' :
  (∀ x a b, x ∈ l → f x = Ok a → g x = Ok b → (a = [] ↔ b = [])) →
  map_results f l = Ok dss → map_results g l = Ok dss' →
  (concat dss = [] ↔ concat dss' = []).
Proof.
  revert dss dss'. induction l as [|x l IH]; intros dss dss' Hfg; cbn [map_results].
  - by intros [= <-] [= <-].
  - destruct (f x) as [a|] eqn:Hf; simpl; [|done].
    destruct (map_results f l) as [ds|]; simpl; [|done].
    destruct (g x) as [b|] eqn:Hg; simpl; [|done].
    destruct (map_results g l) as [ds'|]; simpl; [|done].
    intros [= <-] [= <-]. simpl.
    assert (a = [] ↔ b = []) as Hab by (apply (Hfg x); [left|done..]).
    assert (concat ds = [] ↔ concat ds' = []) as Hds.
    { apply IH; [|done..]. intros y a' b' Hy. apply Hfg. by right. }
    split; intros [??]%app_nil; apply app_nil; split; tauto.
Qed.

Lemma param_diffs_swap_nil tag tag' (a b : dict) :
  param_diffs tag a b = [] ↔ param_diffs tag' b a = [].
Proof.
  unfold param_diffs. rewrite !bind_nil_iff, (union_comm_L (dom b)).
  apply forall_proper. intros key.
  destruct (a !! key) as [p|], (b !! key) as [q|]; try done.
  - destruct (decide (p = q)) as [->|Hne].
    + by rewrite decide_True.
    + rewrite decide_False by congruence.
      split; intros Hnil Hkey; by specialize (Hnil Hkey).
  - split; intros Hnil Hkey; by specialize (Hnil Hkey).
  - split; intros Hnil Hkey; by specialize (Hnil Hkey).
Qed.

Lemma body_diffs_swap_nil tag tag' (a b : json) :
  body_diffs tag a b = [] ↔ body_diffs tag' b a = [].
Proof.
  unfold body_diffs. destruct (decide (a = b)) as [->|Hne].
  - by rewrite decide_True.
  - by rewrite decide_False by congruence.
Qed.

Lemma response_diffs_swap_nil tag tag' (a b : gset string) :
  response_diffs tag a b = [] ↔ response_diffs tag' b a = [].
Proof.
  unfold response_diffs.
  split; intros [Hx Hy]%app_nil; apply fmap_nil_iff in Hx, Hy;
    apply app_nil; split; by apply fmap_nil_iff.
Qed.

Section Swap.
Context `{TextBuiltins}.

Lemma diff_operation_swap_nil method old new diffs diffs' :
  _diff_operation method old new = Ok diffs →
  _diff_operation method new old = Ok diffs' →
  (diffs = [] ↔ diffs' = []).
Proof.
  intros Hd Hd'.
  destruct (diff_operation_inv _ _ _ _ Hd)
    as (op & np & ob & nb & oc & nc & Hop & Hnp & Hob & Hnb & Hoc & Hnc).
  rewrite (diff_operation_parts _ _ _ _ _ _ _ _ _ Hop Hnp Hob Hnb Hoc Hnc) in Hd.
  rewrite (diff_operation_parts _ _ _ _ _ _ _ _ _ Hnp Hop Hnb Hob Hnc Hoc) in Hd'.
  injection Hd as <-. injection Hd' as <-.
  pose proof (param_diffs_swap_nil (upper method) (upper method) op np).
  pose proof (body_diffs_swap_nil (upper method) (upper method) ob nb).
  pose proof (response_diffs_swap_nil (upper method) (upper method) oc nc).
  split; intros [? [??]%app_nil]%app_nil;
    apply app_nil; split; [tauto|apply app_nil; tauto| tauto
                                   |apply app_nil; tauto].
Qed.

Lemma diff_path_item_swap_nil old new diffs diffs' :
  _diff_path_item old new = Ok diffs →
  _diff_path_item new old = Ok diffs' →
  (diffs = [] ↔ diffs' = []).
Proof.
  destruct old as [| | | | | |o]; try done. destruct new as [| | | | | |n]; try done.
  rewrite !diff_path_item_methods, (union_comm_L (dom n)).
  destruct (map_results (method_diffs o n) _) as [dss|] eqn:Hdss; [|done].
  destruct (map_results (method_diffs n o) _) as [dss'|] eqn:Hdss'; [|done].
  simpl. intros [= <-] [= <-].
  refine (map_results_concat_nil _ _ _ _ _ _ Hdss Hdss').
  intros x a b _. unfold method_diffs.
  destruct (o !! x) as [oo|], (n !! x) as [nn|]; try (by intros [= <-] [= <-]).
  apply diff_operation_swap_nil.
Qed.

Lemma common_paths_return (old_paths new_paths : dict) keys acc changed p :
  foldM (diff_common_path (JDict old_paths) (JDict new_paths)) acc keys = Ok changed →
  p ∈ keys →
  ∃ old_item new_item ds,
    old_paths !! p = Some old_item ∧ new_paths !! p = Some new_item
    ∧ _diff_path_item old_item new_item = Ok ds.
Proof.
  revert acc. induction keys as [|key keys IH]; intros acc; cbn [foldM].
  - by intros _ ?%elem_of_nil.
  - destruct (diff_common_path _ _ acc key) as [acc'|] eqn:Hstep; simpl; [|done].
    intros Hrest [->|Hp]%elem_of_cons; [|by eapply IH].
    unfold diff_common_path in Hstep. simpl in Hstep.
    destruct (old_paths !! key) as [oi|]; simpl in Hstep; [|done].
    destruct (new_paths !! key) as [ni|]; simpl in Hstep; [|done].
    destruct (_diff_path_item oi ni) as [ds|] eqn:Hds; simpl in Hstep; [|done].
    eauto 10.
Qed.

Lemma changed_keys_swap (a b : dict) changed changed' p :
  foldM (diff_common_path (JDict a) (JDict b)) [] (sorted (dom a ∩ dom b))
    = Ok changed →
  foldM (diff_common_path (JDict b) (JDict a)) [] (sorted (dom b ∩ dom a))
    = Ok changed' →
  p ∈ changed.*1 → p ∈ changed'.*1.
Proof.
  intros Hch Hch' ([p' ds] & -> & Hin)%list_elem_of_fmap. simpl.
  destruct (changed_fold_entries _ _ _ _ _ Hch) as (found & -> & _ & Hfound).
  destruct (changed_fold_entries _ _ _ _ _ Hch') as (found' & -> & _ & Hfound').
  simpl in *. apply Hfound in Hin as (Hp & Hne & oi & ni & Ho & Hn & Hds).
  rewrite (intersection_comm_L (dom a)) in Hp.
  destruct (common_paths_return _ _ _ _ _ p' Hch' Hp) as (ni' & oi' & ds' & Hn' & Ho' & Hds').
  simplify_eq. apply list_elem_of_fmap. exists (p', ds'). split; [done|].
  apply Hfound'. split_and!; [done| |eauto].
  intros ->. by apply Hne, (diff_path_item_swap_nil _ _ _ _ Hds Hds').
Qed.

(** Comparing two documents in the other direction, with the same filter,
    exchanges the added and the removed paths, reports the same paths as
    changed, and so agrees on whether there are changes at all. *)
Theorem diff_schemas_swap (old new : dict) paths_filter (d1 d2 : SchemaDiff) :
  diff_schemas old new paths_filter = Ok d1 →
  diff_schemas new old paths_filter = Ok d2 →
  added_paths d1 = removed_paths d2 ∧ removed_paths d1 = added_paths d2
  ∧ (changed_paths d1).*1 = (changed_paths d2).*1
  ∧ has_changes d1 = has_changes d2.
Proof.
  intros (a & b & Ha & Hb & Hadd1 & Hrem1 & Hch1)%diff_schemas_inv
         (b' & a' & Hb' & Ha' & Hadd2 & Hrem2 & Hch2)%diff_schemas_inv.
  rewrite Ha in Ha'. rewrite Hb in Hb'. simplify_eq.
  assert ((changed_paths d1).*1 = (changed_paths d2).*1) as Hkeys.
  { destruct (changed_fold_entries _ _ _ _ _ Hch1) as (f1 & Hf1 & Hs1 & _).
    destruct (changed_fold_entries _ _ _ _ _ Hch2) as (f2 & Hf2 & Hs2 & _).
    simpl in Hf1, Hf2.
    destruct (Sorted_sorted_sublist _ _ Hs1), (Sorted_sorted_sublist _ _ Hs2).
    apply sorted_lists_equal; rewrite ?Hf1, ?Hf2; try done.
    rewrite <-Hf1, <-Hf2. intros p. split; by eapply changed_keys_swap. }
  split_and!; [congruence..|done|].
  unfold has_changes. rewrite Hadd1, Hrem1, Hadd2, Hrem2.
  assert (bool_decide (changed_paths d1 = []) = bool_decide (changed_paths d2 = []))
    as ->.
  { apply bool_decide_ext. rewrite <-!(fmap_nil_iff fst). by rewrite Hkeys. }
  by destruct (bool_decide (sorted _ = [])), (bool_decide (sorted _ = [])).
Qed.
End Swap.

Lemma diff_schemas_swap_witness :
  added_paths tags_diff
  = removed_paths {| added_paths := ["/api/foo/"]; removed_paths := [];
                     changed_paths := [("/api/tags/",
                                        ["GET param removed: query:page_size";
                                         "GET response added: 404"])] |}
  ∧ removed_paths tags_diff
    = added_paths {| added_paths := ["/api/foo/"]; removed_paths := [];
                     changed_paths := [("/api/tags/",
                                        ["GET param removed: query:page_size";
                                         "GET response added: 404"])] |}
  ∧ (changed_paths tags_diff).*1
    = (changed_paths {| added_paths := ["/api/foo/"]; removed_paths := [];
                        changed_paths := [("/api/tags/",
                                           ["GET param removed: query:page_size";
                                            "GET response added: 404"])] |}).*1
  ∧ has_changes tags_diff
    = has_changes {| added_paths := ["/api/foo/"]; removed_paths := [];
                     changed_paths := [("/api/tags/",
                                        ["GET param removed: query:page_size";
                                         "GET response added: 404"])] |}.
Proof.
  apply (@diff_schemas_swap ascii_text old_tags_schema new_tags_schema None);
    vm_compute; reflexivity.
Defined.

(** ** How far an extracted document is self-contained *)

Lemma resolve_ref_below (a b : string) (root : dict) :
  _resolve_ref ("#/" +:+ a +:+ "/" +:+ b) root
  = walk_parts (_resolve_ref ("#/" +:+ a) root) (split "/" b).
Proof.
  change ("#/" +:+ a +:+ "/" +:+ b) with ("#/" +:+ (a +:+ String "/" b)).
  rewrite !resolve_ref_walk, split_app_any.
  by rewrite walk_parts_app by apply split_nonempty.
Qed.

Lemma walk_parts_null parts : parts ≠ [] → walk_parts JNull parts = JNull.
Proof. by destruct parts. Qed.

(** Pointers into [components], of any depth, in an extracted document:
    when the component's own pointer [#/components/<category>/<name>] is
    reachable from the kept paths, that pointer and every pointer below it
    resolve in the result to what they resolve to in the source; when it
    is not, they are all absent in the result, even where the closure
    followed a deeper pointer into that component. *)
Theorem extract_component_pointers schema paths result c n :
  extract_paths schema paths = Ok result →
  has_char "/" c = false → has_char "/" n = false →
  (reachable schema (path_refs result) (component_ref c n) →
     _resolve_ref (component_ref c n) result = _resolve_ref (component_ref c n) schema
     ∧ ∀ tail, _resolve_ref (component_ref c n +:+ "/" +:+ tail) result
               = _resolve_ref (component_ref c n +:+ "/" +:+ tail) schema)
  ∧ (¬ reachable schema (path_refs result) (component_ref c n) →
     _resolve_ref (component_ref c n) result = JNull
     ∧ ∀ tail, _resolve_ref (component_ref c n +:+ "/" +:+ tail) result = JNull).
Proof.
  intros Hx Hc Hn.
  assert (∀ tail root,
            _resolve_ref (component_ref c n +:+ "/" +:+ tail) root
            = walk_parts (_resolve_ref (component_ref c n) root) (split "/" tail))
    as Hbelow.
  { intros tail root.
    apply (resolve_ref_below ("components/" +:+ c +:+ "/" +:+ n) tail root). }
  split.
  - intros Hreach.
    assert (_resolve_ref (component_ref c n) result
            = _resolve_ref (component_ref c n) schema) as Heq.
    { rewrite !resolve_component_ref by done. f_equal.
      apply option_eq. intros v.
      rewrite (extract_component_entry _ _ _ c n v Hx). naive_solver. }
    split; [done|]. intros tail. by rewrite !Hbelow, Heq.
  - intros Hno.
    assert (_resolve_ref (component_ref c n) result = JNull) as Heq.
    { rewrite resolve_component_ref by done.
      destruct (component_entry _ c n) as [v|] eqn:Hv; [|done].
      by apply (extract_component_entry _ _ _ c n v Hx) in Hv as [? _]. }
    split; [done|]. intros tail. rewrite Hbelow, Heq.
    apply walk_parts_null, split_nonempty.
Qed.

Lemma extract_component_pointers_witness :
  (reachable deep_pointer_schema (path_refs deep_pointer_subset)
             (component_ref "schemas" "Tag") →
     _resolve_ref (component_ref "schemas" "Tag") deep_pointer_subset
     = _resolve_ref (component_ref "schemas" "Tag") deep_pointer_schema
     ∧ ∀ tail, _resolve_ref (component_ref "schemas" "Tag" +:+ "/" +:+ tail)
                            deep_pointer_subset
               = _resolve_ref (component_ref "schemas" "Tag" +:+ "/" +:+ tail)
                              deep_pointer_schema)
  ∧ (¬ reachable deep_pointer_schema (path_refs deep_pointer_subset)
               (component_ref "schemas" "Tag") →
     _resolve_ref (component_ref "schemas" "Tag") deep_pointer_subset = JNull
     ∧ ∀ tail, _resolve_ref (component_ref "schemas" "Tag" +:+ "/" +:+ tail)
                            deep_pointer_subset = JNull).
Proof.
  apply (extract_component_pointers deep_pointer_schema ["/api/tags/"]);
    vm_compute; reflexivity.
Defined.

(** Extracting an extracted document again, with the same patterns, gives
    the document back exactly when each of its components is reachable
    from its paths inside the document itself. *)
Theorem extract_idempotent_iff schema paths result :
  extract_paths schema paths = Ok result →
  extract_paths result paths = Ok result ↔
  ∀ c n v,
    component_entry (dict_get result "components" (JDict ∅)) c n = Some v →
    reachable result (path_refs result) (component_ref c n).
Proof.
  intros Hx. split.
  - intros Hx2 c n v Hv.
    by apply (extract_component_entry _ _ _ c n v Hx2) in Hv as [? _].
  - revert Hx.
    intros (kept & needed & pruned & Hk & Hn & Hp & ->)%extract_paths_inv.
    unfold path_refs. rewrite subset_document_paths, subset_document_components.
    intros Hcond. set (result := subset_document schema kept pruned).
    assert (foldM (keep_path (dict_get result "paths" (JDict ∅))) ∅ paths = Ok kept)
      as Hk2.
    { unfold result. rewrite subset_document_paths. by eapply kept_paths_again. }
    destruct (needed_closure_total _ _ _ Hk2) as [needed2 Hn2].
    destruct (prune_typed pruned ∅ (elements needed2)) as [pruned2 Hp2].
    assert (pruned2 = pruned) as ->.
    { apply pruned_eq.
      - by eapply prune_fold_nonempty.
      - by eapply prune_components_nonempty.
      - intros c n. apply option_eq. intros v.
        rewrite (prune_components_entry _ _ _ c n v Hp2).
        rewrite component_entry_pruned. split; [naive_solver|].
        intros Hv. split_and!; try done;
          try (apply (prune_components_entry _ _ _ c n v Hp) in Hv
                 as (Hin & ? & ? & _); done).
        apply (needed_closure_reachable _ _ _ Hn2).
        apply (Hcond c n v). by rewrite component_entry_pruned. }
    unfold extract_paths. rewrite Hk2. simpl. rewrite Hn2.
    subst result. rewrite subset_document_components.
    unfold _prune_components. rewrite Hp2. simpl. f_equal.
    by rewrite subset_document_info, subset_document_openapi.
Qed.

Lemma extract_idempotent_iff_witness :
  extract_paths two_hop_subset ["/api/tags/"] = Ok two_hop_subset ↔
  ∀ c n v,
    component_entry (dict_get two_hop_subset "components" (JDict ∅)) c n = Some v →
    reachable two_hop_subset (path_refs two_hop_subset) (component_ref c n).
Proof.
  apply (extract_idempotent_iff two_hop_schema). vm_compute. reflexivity.
Defined.
